(** * self2elf: conversion of a signed executable container to an ELF image

    A shallow embedding of [self2elf.py] and the properties of its
    conversion routine [self2elf].

    The routine reads a chain of fixed-size records from a seekable input
    stream, copies the embedded ELF header and program-header table to the
    output, and then emits every segment (decrypted and decompressed where
    the segment-info table says so) behind the zero padding that brings
    the output up to the segment's declared file offset. *)

From Stdlib Require Import ZArith List Lia Bool.
From Stdlib Require Import Strings.Byte.
From stdpp Require Import base option list list_numbers gmap.

Local Open Scope Z_scope.

(** ** Bytes *)

Abbreviation byte := Byte.byte.
Abbreviation bytes := (list Byte.byte).

#[global] Instance byte_eq_decision : EqDecision byte := Byte.byte_eq_dec.

Definition byte_to_Z (b : byte) : Z := Z.of_N (Byte.to_N b).

Definition byte_of_Z (z : Z) : byte :=
  match Byte.of_N (Z.to_N (z mod 256)) with
  | Some b => b
  | None => Byte.x00
  end.

(** [b"\x00" * n] *)
Definition zeros (n : Z) : bytes := replicate (Z.to_nat n) Byte.x00.

(** [int.from_bytes(bs, "big")] *)
Definition int_from_bytes_big (bs : bytes) : Z :=
  fold_left (fun acc b => acc * 256 + byte_to_Z b) bs 0.

(** [z.to_bytes(n, "big")], for [0 <= z < 256 ^ n] *)
Fixpoint int_to_bytes_big (n : nat) (z : Z) : bytes :=
  match n with
  | O => []
  | S n' => int_to_bytes_big n' (z / 256) ++ [byte_of_Z z]
  end.

Definition byte_xor (a b : byte) : byte :=
  byte_of_Z (Z.lxor (byte_to_Z a) (byte_to_Z b)).

(** ** The records of [scetypes]

    [scetypes] is imported by [self2elf.py]; the records below carry the
    fields that [self2elf] reads or assigns.  Records that the routine
    only constructs, prints and passes on ([SceHeader], [SceVersionInfo],
    [SceControlInfoDigest256]) are kept abstract in [Externals]. *)

Inductive SecureBool := UNUSED | NO | YES.

Inductive ControlType :=
| CONTROL_FLAGS | DIGEST_SHA1 | NPDRM_PS3 | DIGEST_SHA256 | NPDRM_VITA
| UNK_SIG1 | UNK_HASH1.

#[global] Instance SecureBool_eq_dec : EqDecision SecureBool.
Proof. solve_decision. Defined.

#[global] Instance ControlType_eq_dec : EqDecision ControlType.
Proof. solve_decision. Defined.

Record SelfHeader := mkSelfHeader {
  appinfo_offset : Z;
  elf_offset : Z;
  phdr_offset : Z;
  segment_info_offset : Z;
  sceversion_offset : Z;
  controlinfo_offset : Z
}.

Record AppInfoHeader := mkAppInfoHeader {
  self_type : Z;
  sys_version : Z
}.

Record SceControlInfo := mkSceControlInfo {
  type : ControlType
}.

Record SceControlInfoDRM := mkSceControlInfoDRM {
  npdrm_type : Z
}.

(** The embedded executable header: the fields of a 32-bit ELF header. *)
Record ElfHeader := mkElfHeader {
  e_ident : bytes;
  e_type : Z;
  e_machine : Z;
  e_version : Z;
  e_entry : Z;
  e_phoff : Z;
  e_shoff : Z;
  e_flags : Z;
  e_ehsize : Z;
  e_phentsize : Z;
  e_phnum : Z;
  e_shentsize : Z;
  e_shnum : Z;
  e_shstrndx : Z
}.

Record ElfPhdr := mkElfPhdr {
  p_offset : Z;
  p_filesz : Z
}.

Record SegmentInfo := mkSegmentInfo {
  offset : Z;
  size : Z;
  compressed : SecureBool;
  plaintext : SecureBool
}.

(** An entry of the dictionary returned by [sceutils.get_segments]. *)
Record SceSegment := mkSceSegment {
  idx : Z;
  key : bytes;
  iv : bytes
}.

(** ** What [self2elf] imports

    Sizes and constructors of the [scetypes] records, [ElfHeader.pack],
    [sceutils.get_segments], the AES block function behind
    [Crypto.Cipher.AES] and [zlib] decompression.  A constructor returns
    [None] where the Python constructor raises. *)

Class Externals := {
  SceHeader : Type;
  SceHeader_Size : Z;
  SceHeader_new : bytes -> option SceHeader;
  SelfHeader_Size : Z;
  SelfHeader_new : bytes -> option SelfHeader;
  AppInfoHeader_Size : Z;
  AppInfoHeader_new : bytes -> option AppInfoHeader;
  SceVersionInfo : Type;
  SceVersionInfo_Size : Z;
  SceVersionInfo_new : bytes -> option SceVersionInfo;
  SceControlInfo_Size : Z;
  SceControlInfo_new : bytes -> option SceControlInfo;
  SceControlInfoDigest256 : Type;
  SceControlInfoDigest256_Size : Z;
  SceControlInfoDigest256_new : bytes -> option SceControlInfoDigest256;
  SceControlInfoDRM_Size : Z;
  SceControlInfoDRM_new : bytes -> option SceControlInfoDRM;
  ElfHeader_Size : Z;
  ElfHeader_new : bytes -> option ElfHeader;
  ElfHeader_pack : ElfHeader -> bytes;
  ElfPhdr_Size : Z;
  ElfPhdr_new : bytes -> option ElfPhdr;
  SegmentInfo_Size : Z;
  SegmentInfo_new : bytes -> option SegmentInfo;
  (** [get_segments inf pos sce sysver self_type keytype klictxt silent]:
      the stream content and its position on entry; the result is the
      dictionary ([None] when the lookup raises) and the position the
      stream is left at. *)
  get_segments :
    bytes -> Z -> SceHeader -> Z -> Z -> Z -> bytes -> bool ->
    option (gmap Z SceSegment) * Z;
  (** [AES_new key]: the block encryption function of the key, [None]
      when the key is refused. *)
  AES_new : bytes -> option (bytes -> bytes);
  (** [zlib.decompressobj().decompress] *)
  zlib_decompress : bytes -> option bytes
}.

(** ** Machine state

    The routine works on two streams and prints diagnostics.  The state
    keeps the position of the input stream together with the calls made
    on it, the bytes written to the output stream, the local variable
    [at], the printed lines and the calls made to [get_segments].
    [visited] is a ghost journal: one entry [(i, idx)] for every
    iteration of the generation loop, recorded when [idx] is resolved. *)

Inductive InOp :=
| Seek (off : Z)
| Read (n : Z).

Inductive Error :=
| SeekError        (* seek to a negative offset *)
| ConstructError   (* a [scetypes] constructor raised *)
| KeyError         (* dictionary lookup of a missing key *)
| LookupError      (* [sceutils.get_segments] raised *)
| RuntimeError     (* "ELF p_offset invalid!" *)
| CipherError      (* [AES.new] or [Counter.new] raised *)
| ZlibError.       (* [decompress] raised *)

Inductive outcome (A : Type) :=
| Ok (a : A)
| Raise (e : Error).
Arguments Ok {A} a.
Arguments Raise {A} e.

Section Model.
Context `{E : Externals}.

Inductive Msg :=
| PrintSceHeader (h : SceHeader)
| PrintAppInfoHeader (h : AppInfoHeader)
| PrintSceVersionInfo (h : SceVersionInfo)
| PrintSceControlInfo (h : SceControlInfo)
| PrintSceControlInfoDigest256 (h : SceControlInfoDigest256)
| PrintSceControlInfoDRM (h : SceControlInfoDRM)
| PrintElfHeader (h : ElfHeader)
| PrintElfPhdr (h : ElfPhdr)
| PrintSegmentInfo (h : SegmentInfo)
| PrintDumping (idx : Z)
| PrintPadLen (pad_len : Z).

Record LookupArgs := mkLookupArgs {
  la_sce : SceHeader;
  la_sysver : Z;
  la_self_type : Z;
  la_keytype : Z;
  la_klictxt : bytes;
  la_silent : bool
}.

Record State := mkState {
  in_pos : Z;
  in_log : list InOp;
  out : bytes;
  at_ : Z;
  stdout : list Msg;
  lookups : list LookupArgs;
  visited : list (Z * Z)
}.

(** The state in which the routine is entered, the input stream being at
    position [pos]. *)
Definition initial (pos : Z) : State :=
  {| in_pos := pos; in_log := []; out := []; at_ := 0;
     stdout := []; lookups := []; visited := [] |}.

(** A computation runs on a state and ends with a value or an exception;
    the state reached is kept in both cases. *)
Definition M (A : Type) : Type := State -> State * outcome A.

#[export] Instance M_ret : MRet M := fun A a s => (s, Ok a).
#[export] Instance M_bind : MBind M := fun A B f m s =>
  match m s with
  | (s', Ok a) => f a s'
  | (s', Raise e) => (s', Raise e)
  end.

Definition raise {A} (e : Error) : M A := fun s => (s, Raise e).

Definition from_option {A} (e : Error) (o : option A) : M A :=
  match o with
  | Some a => mret a
  | None => raise e
  end.

(** [for x in xs: a = body x a] *)
Fixpoint for_each {X A} (body : X -> A -> M A) (xs : list X) (a : A) : M A :=
  match xs with
  | [] => mret a
  | x :: xs' => a' ← body x a; for_each body xs' a'
  end.

(** [range(n)] *)
Definition range (n : Z) : list Z := seqZ 0 n.

(** *** The input stream [inf] *)

Variable inf : bytes.

(** [inf.seek(off)] *)
Definition inf_seek (off : Z) : M unit := fun s =>
  if off <? 0 then (s, Raise SeekError)
  else (mkState off (in_log s ++ [Seek off]) (out s) (at_ s) (stdout s)
          (lookups s) (visited s), Ok tt).

(** The bytes [read(n)] returns at position [pos]: at most [n] bytes, all
    the remaining ones for a negative [n]. *)
Definition read_at (pos n : Z) : bytes :=
  let rest := drop (Z.to_nat pos) inf in
  if n <? 0 then rest else take (Z.to_nat n) rest.

(** [inf.read(n)] *)
Definition inf_read (n : Z) : M bytes := fun s =>
  let dat := read_at (in_pos s) n in
  (mkState (in_pos s + Z.of_nat (length dat)) (in_log s ++ [Read n]) (out s)
     (at_ s) (stdout s) (lookups s) (visited s), Ok dat).

(** *** The output stream [outf], the cursor and the diagnostics *)

(** [outf.write(dat)] *)
Definition outf_write (dat : bytes) : M unit := fun s =>
  (mkState (in_pos s) (in_log s) (out s ++ dat) (at_ s) (stdout s)
     (lookups s) (visited s), Ok tt).

Definition get_at : M Z := fun s => (s, Ok (at_ s)).

Definition set_at (v : Z) : M unit := fun s =>
  (mkState (in_pos s) (in_log s) (out s) v (stdout s) (lookups s)
     (visited s), Ok tt).

Definition print (m : Msg) : M unit := fun s =>
  (mkState (in_pos s) (in_log s) (out s) (at_ s) (stdout s ++ [m])
     (lookups s) (visited s), Ok tt).

(** [if not silent: print(m)] *)
Definition print_unless (silent : bool) (m : Msg) : M unit :=
  if silent then mret tt else print m.

Definition visit (i idx : Z) : M unit := fun s =>
  (mkState (in_pos s) (in_log s) (out s) (at_ s) (stdout s) (lookups s)
     (visited s ++ [(i, idx)]), Ok tt).

(** [sceutils.get_segments(inf, sce, sysver, self_type, keytype, klictxt,
    silent)] *)
Definition call_get_segments (sce : SceHeader) (sysver self_ty keytype : Z)
    (klictxt : bytes) (silent : bool) : M (gmap Z SceSegment) := fun s =>
  let '(r, pos') :=
    get_segments inf (in_pos s) sce sysver self_ty keytype klictxt silent in
  let s' := mkState pos' (in_log s) (out s) (at_ s) (stdout s)
              (lookups s ++ [mkLookupArgs sce sysver self_ty keytype klictxt silent])
              (visited s) in
  match r with
  | Some d => (s', Ok d)
  | None => (s', Raise LookupError)
  end.

(** *** Counter-mode decryption

    [Counter.new(128, initial_value=v)] with [AES.new(key, AES.MODE_CTR,
    counter=ctr)] and [decrypt(dat)], after the behaviour of the
    [Crypto] library: the counter block is the 16-byte big-endian form
    of the counter, the keystream block of the [j]-th 16-byte block of
    the data is the encryption of the counter after [j] increments, and
    the counter wraps at [2 ^ 128]. *)

Definition counter_block (ctr : Z) : bytes := int_to_bytes_big 16 ctr.

Fixpoint ctr_crypt (enc : bytes -> bytes) (ctr : Z) (fuel : nat) (dat : bytes)
    : bytes :=
  match fuel with
  | O => []
  | S fuel' =>
      match dat with
      | [] => []
      | _ => zip_with byte_xor (take 16 dat) (enc (counter_block ctr))
               ++ ctr_crypt enc ((ctr + 1) mod 2 ^ 128) fuel' (drop 16 dat)
      end
  end.

Definition aes_ctr_decrypt (k : bytes) (initial_value : Z) (dat : bytes)
    : option bytes :=
  if 2 ^ 128 <=? initial_value then None
  else match AES_new k with
       | Some enc => Some (ctr_crypt enc initial_value (length dat) dat)
       | None => None
       end.

(** ** The routine *)

(** Lines 36-61: the control-info chain; the result is [npdrmtype]. *)
Definition read_control_info (silent : bool) (self_hdr : SelfHeader) : M Z :=
  inf_seek (controlinfo_offset self_hdr);;
  dat ← inf_read SceControlInfo_Size;
  controlinfo_hdr ← from_option ConstructError (SceControlInfo_new dat);
  let ci_off := SceControlInfo_Size in
  print_unless silent (PrintSceControlInfo controlinfo_hdr);;
  ci_off ← (if decide (type controlinfo_hdr = DIGEST_SHA256) then
              inf_seek (controlinfo_offset self_hdr + ci_off);;
              dat ← inf_read SceControlInfoDigest256_Size;
              controldigest256 ←
                from_option ConstructError (SceControlInfoDigest256_new dat);
              print_unless silent (PrintSceControlInfoDigest256 controldigest256);;
              mret (ci_off + SceControlInfoDigest256_Size)
            else mret ci_off);
  inf_seek (controlinfo_offset self_hdr + ci_off);;
  dat ← inf_read SceControlInfo_Size;
  controlinfo_hdr ← from_option ConstructError (SceControlInfo_new dat);
  print_unless silent (PrintSceControlInfo controlinfo_hdr);;
  let ci_off := ci_off + SceControlInfo_Size in
  if decide (type controlinfo_hdr = NPDRM_VITA) then
    inf_seek (controlinfo_offset self_hdr + ci_off);;
    dat ← inf_read SceControlInfoDRM_Size;
    controlnpdrm ← from_option ConstructError (SceControlInfoDRM_new dat);
    print_unless silent (PrintSceControlInfoDRM controlnpdrm);;
    mret (npdrm_type controlnpdrm)
  else mret 0.

(** Lines 24-61: the records the loader header points to. *)
Definition read_infos (silent ignore_sysver : bool) (sce : SceHeader)
    (self_hdr : SelfHeader) : M (SceHeader * SelfHeader * AppInfoHeader * Z) :=
  inf_seek (appinfo_offset self_hdr);;
  dat ← inf_read AppInfoHeader_Size;
  appinfo_hdr ← from_option ConstructError (AppInfoHeader_new dat);
  let appinfo_hdr :=
    if ignore_sysver
    then {| self_type := self_type appinfo_hdr; sys_version := -1 |}
    else appinfo_hdr in
  print_unless silent (PrintAppInfoHeader appinfo_hdr);;
  inf_seek (sceversion_offset self_hdr);;
  dat ← inf_read SceVersionInfo_Size;
  verinfo_hdr ← from_option ConstructError (SceVersionInfo_new dat);
  print_unless silent (PrintSceVersionInfo verinfo_hdr);;
  npdrmtype ← read_control_info silent self_hdr;
  mret (sce, self_hdr, appinfo_hdr, npdrmtype).

(** Lines 17-61: the header chain. *)
Definition read_headers (silent ignore_sysver : bool)
    : M (SceHeader * SelfHeader * AppInfoHeader * Z) :=
  dat ← inf_read SceHeader_Size;
  sce ← from_option ConstructError (SceHeader_new dat);
  print_unless silent (PrintSceHeader sce);;
  dat ← inf_read SelfHeader_Size;
  self_hdr ← from_option ConstructError (SelfHeader_new dat);
  read_infos silent ignore_sysver sce self_hdr.

(** Lines 69-71: the header as it is packed. *)
Definition strip_sections (elf_hdr : ElfHeader) : ElfHeader :=
  if decide (e_machine elf_hdr = 0xf00d) then
    {| e_ident := e_ident elf_hdr; e_type := e_type elf_hdr;
       e_machine := e_machine elf_hdr; e_version := e_version elf_hdr;
       e_entry := e_entry elf_hdr; e_phoff := e_phoff elf_hdr;
       e_shoff := 0; e_flags := e_flags elf_hdr;
       e_ehsize := e_ehsize elf_hdr; e_phentsize := e_phentsize elf_hdr;
       e_phnum := e_phnum elf_hdr; e_shentsize := e_shentsize elf_hdr;
       e_shnum := 0; e_shstrndx := e_shstrndx elf_hdr |}
  else elf_hdr.

(** Lines 63-78: copy elf header; [at] starts behind it. *)
Definition copy_elf_header (silent : bool) (self_hdr : SelfHeader)
    : M ElfHeader :=
  inf_seek (elf_offset self_hdr);;
  dat ← inf_read ElfHeader_Size;
  elf_hdr ← from_option ConstructError (ElfHeader_new dat);
  print_unless silent (PrintElfHeader elf_hdr);;
  let elf_hdr := strip_sections elf_hdr in
  outf_write (ElfHeader_pack elf_hdr);;
  set_at ElfHeader_Size;;
  mret elf_hdr.

(** The locals filled by the first loop. *)
Record Tables := mkTables {
  elf_phdrs : gmap Z ElfPhdr;
  segment_infos : gmap Z SegmentInfo;
  encrypted : bool
}.

(** Lines 80-99: the body of the first loop. *)
Definition read_segment_entry (silent : bool) (self_hdr : SelfHeader)
    (i : Z) (t : Tables) : M Tables :=
  inf_seek (phdr_offset self_hdr + i * ElfPhdr_Size);;
  dat ← inf_read ElfPhdr_Size;
  phdr ← from_option ConstructError (ElfPhdr_new dat);
  print_unless silent (PrintElfPhdr phdr);;
  outf_write dat;;
  a ← get_at;
  set_at (a + ElfPhdr_Size);;
  inf_seek (segment_info_offset self_hdr + i * SegmentInfo_Size);;
  dat ← inf_read SegmentInfo_Size;
  segment_info ← from_option ConstructError (SegmentInfo_new dat);
  print_unless silent (PrintSegmentInfo segment_info);;
  mret {| elf_phdrs := <[i := phdr]> (elf_phdrs t);
          segment_infos := <[i := segment_info]> (segment_infos t);
          encrypted := if decide (plaintext segment_info = NO) then true
                       else encrypted t |}.

(** Lines 107-110: the index the loop works on at iteration [i]. *)
Definition resolve_idx (scesegs : gmap Z SceSegment) (i : Z) : M Z :=
  if decide (scesegs = ∅) then mret i
  else seg ← from_option KeyError (scesegs !! i); mret (idx seg).

(** Lines 129-138: decryption, then decompression. *)
Definition transform_segment (scesegs : gmap Z SceSegment)
    (segment_info : SegmentInfo) (i : Z) (dat : bytes) : M bytes :=
  dat ← (if decide (plaintext segment_info = NO) then
           seg ← from_option KeyError (scesegs !! i);
           from_option CipherError
             (aes_ctr_decrypt (key seg) (int_from_bytes_big (iv seg)) dat)
         else mret dat);
  if decide (compressed segment_info = YES) then
    from_option ZlibError (zlib_decompress dat)
  else mret dat.

(** Lines 107-142: the body of the second loop. *)
Definition dump_segment (silent : bool) (t : Tables)
    (scesegs : gmap Z SceSegment) (i : Z) (_ : unit) : M unit :=
  idx ← resolve_idx scesegs i;
  visit i idx;;
  phdr ← from_option KeyError (elf_phdrs t !! idx);
  if decide (p_filesz phdr = 0) then mret tt
  else
    print_unless silent (PrintDumping idx);;
    a ← get_at;
    let pad_len := p_offset phdr - a in
    if pad_len <? 0 then
      print (PrintPadLen pad_len);;
      raise RuntimeError
    else
      outf_write (zeros pad_len);;
      set_at (a + pad_len);;
      segment_info ← from_option KeyError (segment_infos t !! idx);
      inf_seek (offset segment_info);;
      dat ← inf_read (size segment_info);
      dat ← transform_segment scesegs segment_info i dat;
      outf_write dat;;
      a ← get_at;
      set_at (a + Z.of_nat (length dat)).

(** Lines 79-99: get segments. *)
Definition read_tables (silent : bool) (self_hdr : SelfHeader)
    (elf_hdr : ElfHeader) : M Tables :=
  for_each (read_segment_entry silent self_hdr) (range (e_phnum elf_hdr))
    {| elf_phdrs := ∅; segment_infos := ∅; encrypted := false |}.

(** Lines 100-104: get keys. *)
Definition get_keys (silent : bool) (klictxt : bytes) (sce : SceHeader)
    (appinfo_hdr : AppInfoHeader) (npdrmtype : Z) (t : Tables)
    : M (gmap Z SceSegment) :=
  if encrypted t then
    call_get_segments sce (sys_version appinfo_hdr) (self_type appinfo_hdr)
      npdrmtype klictxt silent
  else mret ∅.

(** Lines 105-142: generate ELF. *)
Definition generate_elf (silent : bool) (elf_hdr : ElfHeader) (t : Tables)
    (scesegs : gmap Z SceSegment) : M unit :=
  for_each (dump_segment silent t scesegs) (range (e_phnum elf_hdr)) tt.

Definition self2elf (klictxt : bytes) (silent ignore_sysver : bool) : M unit :=
  '(sce, self_hdr, appinfo_hdr, npdrmtype) ← read_headers silent ignore_sysver;
  elf_hdr ← copy_elf_header silent self_hdr;
  t ← read_tables silent self_hdr elf_hdr;
  scesegs ← get_keys silent klictxt sce appinfo_hdr npdrmtype t;
  generate_elf silent elf_hdr t scesegs.

End Model.

(** ** A sample instance of the imports

    Little-endian records in the layout of the container format, a key
    table stored in the clear at the metadata offset in place of the key
    derivation, a one-round block function in place of AES and a stored
    block in place of deflate.  It serves to run the routine on concrete
    streams. *)

Module Sample.

(** [struct.pack("<...")] of one unsigned field of [n] bytes *)
Definition le (n : nat) (z : Z) : bytes := rev (int_to_bytes_big n z).

(** The unsigned field of [n] bytes at offset [off] of [dat] *)
Definition field (dat : bytes) (off n : nat) : Z :=
  int_from_bytes_big (rev (take n (drop off dat))).

Definition sized {A} (n : nat) (dat : bytes) (a : option A) : option A :=
  if decide (length dat = n) then a else None.

Record SceHeader_t := mkSceHeader {
  metadata_offset : Z;
  header_length : Z;
  data_length : Z
}.

Definition SceHeader_new_ (dat : bytes) : option SceHeader_t :=
  sized 32 dat
    (if decide (field dat 0 4 = 0x00454353 ∧ field dat 4 4 = 3)
     then Some (mkSceHeader (field dat 12 4) (field dat 16 8) (field dat 24 8))
     else None).

Definition SelfHeader_new_ (dat : bytes) : option SelfHeader :=
  sized 88 dat
    (Some {| appinfo_offset := field dat 24 8;
             elf_offset := field dat 32 8;
             phdr_offset := field dat 40 8;
             segment_info_offset := field dat 56 8;
             sceversion_offset := field dat 64 8;
             controlinfo_offset := field dat 72 8 |}).

Definition AppInfoHeader_new_ (dat : bytes) : option AppInfoHeader :=
  sized 32 dat
    (Some {| self_type := field dat 12 4; sys_version := field dat 16 8 |}).

Definition SceVersionInfo_new_ (dat : bytes) : option bytes :=
  sized 16 dat (Some dat).

Definition ControlType_of (z : Z) : option ControlType :=
  match z with
  | 1 => Some CONTROL_FLAGS
  | 2 => Some DIGEST_SHA1
  | 3 => Some NPDRM_PS3
  | 4 => Some DIGEST_SHA256
  | 5 => Some NPDRM_VITA
  | 6 => Some UNK_SIG1
  | 7 => Some UNK_HASH1
  | _ => None
  end.

Definition SceControlInfo_new_ (dat : bytes) : option SceControlInfo :=
  sized 16 dat (mkSceControlInfo <$> ControlType_of (field dat 0 4)).

Definition SceControlInfoDigest256_new_ (dat : bytes) : option bytes :=
  sized 64 dat (Some dat).

Definition SceControlInfoDRM_new_ (dat : bytes) : option SceControlInfoDRM :=
  sized 256 dat (Some {| npdrm_type := field dat 8 4 |}).

Definition ElfHeader_new_ (dat : bytes) : option ElfHeader :=
  sized 52 dat
    (Some {| e_ident := take 16 dat;
             e_type := field dat 16 2;
             e_machine := field dat 18 2;
             e_version := field dat 20 4;
             e_entry := field dat 24 4;
             e_phoff := field dat 28 4;
             e_shoff := field dat 32 4;
             e_flags := field dat 36 4;
             e_ehsize := field dat 40 2;
             e_phentsize := field dat 42 2;
             e_phnum := field dat 44 2;
             e_shentsize := field dat 46 2;
             e_shnum := field dat 48 2;
             e_shstrndx := field dat 50 2 |}).

Definition ElfHeader_pack_ (h : ElfHeader) : bytes :=
  take 16 (e_ident h ++ zeros 16)
  ++ le 2 (e_type h) ++ le 2 (e_machine h) ++ le 4 (e_version h)
  ++ le 4 (e_entry h) ++ le 4 (e_phoff h) ++ le 4 (e_shoff h)
  ++ le 4 (e_flags h) ++ le 2 (e_ehsize h) ++ le 2 (e_phentsize h)
  ++ le 2 (e_phnum h) ++ le 2 (e_shentsize h) ++ le 2 (e_shnum h)
  ++ le 2 (e_shstrndx h).

Definition ElfPhdr_new_ (dat : bytes) : option ElfPhdr :=
  sized 32 dat
    (Some {| p_offset := field dat 4 4; p_filesz := field dat 16 4 |}).

Definition SecureBool_of (z : Z) : option SecureBool :=
  match z with
  | 0 => Some UNUSED
  | 1 => Some NO
  | 2 => Some YES
  | _ => None
  end.

Definition SegmentInfo_new_ (dat : bytes) : option SegmentInfo :=
  sized 32 dat
    (c ← SecureBool_of (field dat 16 4);
     p ← SecureBool_of (field dat 24 4);
     Some {| offset := field dat 0 8; size := field dat 8 8;
             compressed := c; plaintext := p |}).

(** The key table: a 4-byte count, then for every entry its index on 4
    bytes, its key on 16 and its initial counter on 16. *)
Fixpoint key_entries (n : nat) (i : Z) (dat : bytes) : option (gmap Z SceSegment) :=
  match n with
  | O => Some ∅
  | S n' =>
      if decide (36 <= length dat)%nat then
        m ← key_entries n' (i + 1) (drop 36 dat);
        Some (<[i := {| idx := field dat 0 4;
                        key := take 16 (drop 4 dat);
                        iv := take 16 (drop 20 dat) |}]> m)
      else None
  end.

Definition get_segments_ (inf : bytes) (pos : Z) (sce : SceHeader_t)
    (sysver self_ty keytype : Z) (klictxt : bytes) (silent : bool)
    : option (gmap Z SceSegment) * Z :=
  let tab := drop (Z.to_nat (metadata_offset sce)) inf in
  let n := field tab 0 4 in
  (key_entries (Z.to_nat n) 0 (drop 4 tab), metadata_offset sce + 4 + 36 * n).

Definition AES_new_ (k : bytes) : option (bytes -> bytes) :=
  if decide (length k = 16%nat ∨ length k = 24%nat ∨ length k = 32%nat)
  then Some (fun blk => zip_with byte_xor (take 16 (blk ++ zeros 16)) k)
  else None.

Definition zlib_decompress_ (dat : bytes) : option bytes :=
  match dat with
  | b :: rest => if decide (b = Byte.x78) then Some rest else None
  | [] => None
  end.

#[global] Instance externals : Externals := {|
  SceHeader := SceHeader_t;
  SceHeader_Size := 32;
  SceHeader_new := SceHeader_new_;
  SelfHeader_Size := 88;
  SelfHeader_new := SelfHeader_new_;
  AppInfoHeader_Size := 32;
  AppInfoHeader_new := AppInfoHeader_new_;
  SceVersionInfo := bytes;
  SceVersionInfo_Size := 16;
  SceVersionInfo_new := SceVersionInfo_new_;
  SceControlInfo_Size := 16;
  SceControlInfo_new := SceControlInfo_new_;
  SceControlInfoDigest256 := bytes;
  SceControlInfoDigest256_Size := 64;
  SceControlInfoDigest256_new := SceControlInfoDigest256_new_;
  SceControlInfoDRM_Size := 256;
  SceControlInfoDRM_new := SceControlInfoDRM_new_;
  ElfHeader_Size := 52;
  ElfHeader_new := ElfHeader_new_;
  ElfHeader_pack := ElfHeader_pack_;
  ElfPhdr_Size := 32;
  ElfPhdr_new := ElfPhdr_new_;
  SegmentInfo_Size := 32;
  SegmentInfo_new := SegmentInfo_new_;
  get_segments := get_segments_;
  AES_new := AES_new_;
  zlib_decompress := zlib_decompress_
|}.

(** *** Sample containers *)

Definition bstr (zs : list Z) : bytes := map byte_of_Z zs.

Definition sce_bytes (metadata_off : Z) : bytes :=
  le 4 0x00454353 ++ le 4 3 ++ le 1 0x40 ++ le 1 0 ++ le 2 1
  ++ le 4 metadata_off ++ le 8 0 ++ le 8 0.

Definition self_bytes (app elf ph si ver ci : Z) : bytes :=
  le 8 0 ++ le 8 0 ++ le 8 0 ++ le 8 app ++ le 8 elf ++ le 8 ph ++ le 8 0
  ++ le 8 si ++ le 8 ver ++ le 8 ci ++ le 8 0.

Definition appinfo_bytes (self_ty sysver : Z) : bytes :=
  le 8 0 ++ le 4 0 ++ le 4 self_ty ++ le 8 sysver ++ le 8 0.

Definition controlinfo_bytes (ty : Z) : bytes := le 4 ty ++ le 4 0 ++ le 8 0.

Definition drm_bytes (ty : Z) : bytes :=
  le 4 0 ++ le 4 0 ++ le 4 ty ++ zeros 244.

Definition elf_bytes (machine phnum shoff shnum : Z) : bytes :=
  bstr [0x7f; 0x45; 0x4c; 0x46; 1; 1; 1; 0; 0; 0; 0; 0; 0; 0; 0; 0]
  ++ le 2 2 ++ le 2 machine ++ le 4 1 ++ le 4 0 ++ le 4 52 ++ le 4 shoff
  ++ le 4 0 ++ le 2 52 ++ le 2 32 ++ le 2 phnum ++ le 2 0 ++ le 2 shnum
  ++ le 2 0.

Definition phdr_bytes (off filesz : Z) : bytes :=
  le 4 1 ++ le 4 off ++ le 4 0 ++ le 4 0 ++ le 4 filesz ++ le 4 filesz
  ++ le 4 5 ++ le 4 16.

Definition seginfo_bytes (off sz comp plain : Z) : bytes :=
  le 8 off ++ le 8 sz ++ le 4 comp ++ le 4 0 ++ le 4 plain ++ le 4 0.

Definition key_entry_bytes (i : Z) (k ctr : bytes) : bytes :=
  le 4 i ++ k ++ ctr.

(** A segment of a sample container: the file offset and file size of
    its program header, the bytes stored for it and its two flags. *)
Record Seg := mkSeg {
  seg_off : Z;
  seg_filesz : Z;
  seg_data : bytes;
  seg_compressed : Z;
  seg_plaintext : Z
}.

Definition control_chain (ci1 ci2 drm : Z) : bytes :=
  controlinfo_bytes ci1
  ++ (if decide (ci1 = 4) then zeros 64 else [])
  ++ controlinfo_bytes ci2
  ++ (if decide (ci2 = 5) then drm_bytes drm else []).

Fixpoint seginfo_table (data_off : Z) (segs : list Seg) : bytes :=
  match segs with
  | [] => []
  | sg :: segs' =>
      seginfo_bytes data_off (Z.of_nat (length (seg_data sg)))
        (seg_compressed sg) (seg_plaintext sg)
      ++ seginfo_table (data_off + Z.of_nat (length (seg_data sg))) segs'
  end.

Definition key_table (keys : list (Z * bytes * bytes)) : bytes :=
  le 4 (Z.of_nat (length keys))
  ++ concat (map (fun '(i, k, c) => key_entry_bytes i k c) keys).

(** The container: envelope, loader header, app info, version info,
    control-info chain, ELF header, program headers, segment infos,
    segment data and key table, one after the other; [base] is the
    offset of the container in the stream it is part of. *)
Definition container_at (base machine shoff shnum ci1 ci2 drm : Z)
    (segs : list Seg) (keys : list (Z * bytes * bytes)) : bytes :=
  let chain := control_chain ci1 ci2 drm in
  let n := Z.of_nat (length segs) in
  let elf := base + 168 + Z.of_nat (length chain) in
  let ph := elf + 52 in
  let si := ph + 32 * n in
  let data := si + 32 * n in
  let payload := concat (map seg_data segs) in
  let meta := data + Z.of_nat (length payload) in
  sce_bytes meta
  ++ self_bytes (base + 120) elf ph si (base + 152) (base + 168)
  ++ appinfo_bytes 8 0x03600000
  ++ zeros 16
  ++ chain
  ++ elf_bytes machine n shoff shnum
  ++ concat (map (fun sg => phdr_bytes (seg_off sg) (seg_filesz sg)) segs)
  ++ seginfo_table data segs
  ++ payload
  ++ key_table keys.

Definition container : Z -> Z -> Z -> Z -> Z -> Z -> list Seg ->
    list (Z * bytes * bytes) -> bytes :=
  container_at 0.

Definition plain_segs : list Seg :=
  [ mkSeg 120 5 (bstr [1; 2; 3; 4; 5]) 1 2;
    mkSeg 128 3 (bstr [6; 7; 8]) 1 2 ].

(** Two plaintext, uncompressed segments behind a digest and a DRM
    record. *)
Definition plain_container : bytes :=
  container 40 0 0 4 5 2 plain_segs [].

(** The loader header of the sample containers with a digest and a DRM
    record. *)
Definition sample_self_header : SelfHeader :=
  {| appinfo_offset := 120; elf_offset := 520; phdr_offset := 572;
     segment_info_offset := 636; sceversion_offset := 152;
     controlinfo_offset := 168 |}.

(** The same container with machine type [0xf00d], a section-header
    offset of [0x1000] and three section headers. *)
Definition f00d_container : bytes :=
  container 0xf00d 0x1000 3 4 5 2 plain_segs [].

Definition f00d_header (shoff shnum : Z) : ElfHeader :=
  {| e_ident := bstr [0x7f; 0x45; 0x4c; 0x46; 1; 1; 1; 0;
                      0; 0; 0; 0; 0; 0; 0; 0];
     e_type := 2; e_machine := 0xf00d; e_version := 1; e_entry := 0;
     e_phoff := 52; e_shoff := shoff; e_flags := 0; e_ehsize := 52;
     e_phentsize := 32; e_phnum := 2; e_shentsize := 0; e_shnum := shnum;
     e_shstrndx := 0 |}.

(** The state in which the header of [f00d_container] has been copied. *)
Definition f00d_copied : State :=
  Eval vm_compute in
    (copy_elf_header f00d_container true sample_self_header (initial 0)).1.

(** The state in which the header chain of [plain_container] has been
    read. *)
Definition plain_headers_read : State :=
  Eval vm_compute in (read_headers plain_container true false (initial 0)).1.

(** The header of [plain_container] and the state in which it has been
    copied. *)
Definition plain_header : ElfHeader :=
  {| e_ident := bstr [0x7f; 0x45; 0x4c; 0x46; 1; 1; 1; 0;
                      0; 0; 0; 0; 0; 0; 0; 0];
     e_type := 2; e_machine := 40; e_version := 1; e_entry := 0;
     e_phoff := 52; e_shoff := 0; e_flags := 0; e_ehsize := 52;
     e_phentsize := 32; e_phnum := 2; e_shentsize := 0; e_shnum := 0;
     e_shstrndx := 0 |}.

Definition plain_header_copied : State :=
  Eval vm_compute in
    (copy_elf_header plain_container true sample_self_header
       plain_headers_read).1.

(** A stream that holds the envelope and the loader header of a
    container twice: at offset 0 and, with the rest of the container, at
    offset 120. *)
Definition doubled_stream : bytes :=
  take 120 (container_at 120 40 0 0 4 5 2 plain_segs [])
  ++ container_at 120 40 0 0 4 5 2 plain_segs [].

(** *** Containers with key material *)

Definition key_a : bytes := bstr [1; 2; 3; 4; 5; 6; 7; 8; 9; 10; 11; 12; 13; 14; 15; 16].
Definition key_b : bytes := bstr [16; 15; 14; 13; 12; 11; 10; 9; 8; 7; 6; 5; 4; 3; 2; 1].
Definition ctr_a : bytes := bstr [0; 0; 0; 0; 0; 0; 0; 0; 0; 0; 0; 0; 0; 0; 0; 7].
Definition ctr_b : bytes := bstr [0; 0; 0; 0; 0; 0; 0; 0; 0; 0; 0; 0; 0; 0; 1; 0].

(** Program header 0 lies behind program header 1 in the file; both
    segments are encrypted. *)
Definition swapped_segs : list Seg :=
  [ mkSeg 128 3 (bstr [6; 7; 8]) 1 1;
    mkSeg 120 5 (bstr [1; 2; 3; 4; 5]) 1 1 ].

(** Entry 0 of the key material names program header 1, entry 1 names
    program header 0. *)
Definition swapped_container : bytes :=
  container 40 0 0 4 5 2 swapped_segs [(1, key_a, ctr_a); (0, key_b, ctr_b)].

(** Both entries of the key material name program header 0. *)
Definition repeated_container : bytes :=
  container 40 0 0 4 5 2 swapped_segs [(0, key_a, ctr_a); (0, key_b, ctr_b)].

(** The first segment is declared at file offset 100, inside the
    program-header table. *)
Definition early_container : bytes :=
  container 40 0 0 4 5 2
    [ mkSeg 100 5 (bstr [1; 2; 3; 4; 5]) 1 1;
      mkSeg 128 3 (bstr [6; 7; 8]) 1 1 ]
    [(0, key_a, ctr_a); (1, key_b, ctr_b)].

Definition swapped_keys : gmap Z SceSegment :=
  {[ 0 := mkSceSegment 1 key_a ctr_a; 1 := mkSceSegment 0 key_b ctr_b ]}.

Definition swapped_headers_read : State :=
  Eval vm_compute in (read_headers swapped_container true false (initial 0)).1.

Definition swapped_header_copied : State :=
  Eval vm_compute in
    (copy_elf_header swapped_container true sample_self_header
       swapped_headers_read).1.

Definition swapped_tables_read : State :=
  Eval vm_compute in
    (read_tables swapped_container true sample_self_header plain_header
       swapped_header_copied).1.

Definition swapped_tables : Tables :=
  {| elf_phdrs := {[ 0 := mkElfPhdr 128 3; 1 := mkElfPhdr 120 5 ]};
     segment_infos := {[ 0 := mkSegmentInfo 700 3 NO NO;
                         1 := mkSegmentInfo 703 5 NO NO ]};
     encrypted := true |}.

Definition swapped_keys_read : State :=
  Eval vm_compute in
    (get_keys swapped_container true (zeros 16) (mkSceHeader 708 0 0)
       (mkAppInfoHeader 8 0x03600000) 2 swapped_tables
       swapped_tables_read).1.

(** The states and tables of the conversion of [early_container]. *)
Definition early_headers_read : State :=
  Eval vm_compute in (read_headers early_container true false (initial 0)).1.

Definition early_header_copied : State :=
  Eval vm_compute in
    (copy_elf_header early_container true sample_self_header
       early_headers_read).1.

Definition early_tables_read : State :=
  Eval vm_compute in
    (read_tables early_container true sample_self_header plain_header
       early_header_copied).1.

Definition early_tables : Tables :=
  {| elf_phdrs := {[ 0 := mkElfPhdr 100 5; 1 := mkElfPhdr 128 3 ]};
     segment_infos := {[ 0 := mkSegmentInfo 700 5 NO NO;
                         1 := mkSegmentInfo 705 3 NO NO ]};
     encrypted := true |}.

(** A container without program headers. *)
Definition bare_container : bytes := container 40 0 0 4 5 2 [] [].

Definition bare_self_header : SelfHeader :=
  {| appinfo_offset := 120; elf_offset := 520; phdr_offset := 572;
     segment_info_offset := 572; sceversion_offset := 152;
     controlinfo_offset := 168 |}.

Definition bare_header : ElfHeader :=
  {| e_ident := bstr [0x7f; 0x45; 0x4c; 0x46; 1; 1; 1; 0;
                      0; 0; 0; 0; 0; 0; 0; 0];
     e_type := 2; e_machine := 40; e_version := 1; e_entry := 0;
     e_phoff := 52; e_shoff := 0; e_flags := 0; e_ehsize := 52;
     e_phentsize := 32; e_phnum := 0; e_shentsize := 0; e_shnum := 0;
     e_shstrndx := 0 |}.

Definition bare_headers_read : State :=
  Eval vm_compute in (read_headers bare_container true false (initial 0)).1.

Definition bare_header_copied : State :=
  Eval vm_compute in
    (copy_elf_header bare_container true bare_self_header
       bare_headers_read).1.

(** The state in which the conversion of [plain_container], started one
    byte into the stream, has failed to read the envelope. *)
Definition misaligned_failed : State :=
  Eval vm_compute in (read_headers plain_container true false (initial 1)).1.



End Sample.


(** * Notions used in the statements *)

Section Notions.
Context `{E : Externals}.

(** The cursor accounts for every byte written. *)
Definition tracked (s : State) : Prop :=
  at_ s = Z.of_nat (length (out s)).

(** The index the second loop works on at iteration [i], when there is
    one. *)
Definition resolved (scesegs : gmap Z SceSegment) (i : Z) : option Z :=
  if decide (scesegs = ∅) then Some i else idx <$> scesegs !! i.

(** The bytes of a segment after decryption: those of the stream for a
    segment that is not marked [NO], the counter-mode transform under the
    key and initial counter of entry [i] otherwise. *)
Definition decrypted (scesegs : gmap Z SceSegment) (si : SegmentInfo)
    (i : Z) (raw : bytes) : option bytes :=
  if decide (plaintext si = NO) then
    seg ← scesegs !! i;
    aes_ctr_decrypt (key seg) (int_from_bytes_big (iv seg)) raw
  else Some raw.

(** The bytes of a segment as they are written: decrypted, then
    decompressed when the segment is marked [YES]. *)
Definition payload (scesegs : gmap Z SceSegment) (si : SegmentInfo)
    (i : Z) (raw : bytes) : option bytes :=
  dat ← decrypted scesegs si i raw;
  if decide (compressed si = YES) then zlib_decompress dat else Some dat.

(** The index fields of the key material, in the order of its entries
    [0 .. n-1]. *)
Definition index_map (scesegs : gmap Z SceSegment) (n : Z) : list Z :=
  omap (fun i => idx <$> scesegs !! i) (range n).

(** A log made of seeks, each followed by one read. *)
Inductive paired : list InOp -> Prop :=
| paired_nil : paired []
| paired_cons off n l : paired l -> paired (Seek off :: Read n :: l).

(** Two states that differ in the position of the input stream at
    most. *)
Definition same_but_pos (s1 s2 : State) : Prop :=
  in_log s1 = in_log s2 /\ out s1 = out s2 /\ at_ s1 = at_ s2
  /\ stdout s1 = stdout s2 /\ lookups s1 = lookups s2
  /\ visited s1 = visited s2.

(** The journal agrees with the resolution of the indices [d]. *)
Definition journal_of (scesegs : gmap Z SceSegment) (d : list Z)
    (s : State) : Prop :=
  Forall2 (fun i p => p.1 = i /\ resolved scesegs i = Some p.2) d (visited s).

End Notions.

(** ** What a container stores *)

Section Stored.
Context `{E : Externals}.
Variable inf : bytes.

(** The bytes of program header [i] and of segment info [i]. *)
Definition phdr_dat (sh : SelfHeader) (i : Z) : bytes :=
  read_at inf (phdr_offset sh + i * ElfPhdr_Size) ElfPhdr_Size.

Definition seginfo_dat (sh : SelfHeader) (i : Z) : bytes :=
  read_at inf (segment_info_offset sh + i * SegmentInfo_Size) SegmentInfo_Size.

Definition stored_phdr (sh : SelfHeader) (i : Z) : option ElfPhdr :=
  ElfPhdr_new (phdr_dat sh i).

Definition stored_seginfo (sh : SelfHeader) (i : Z) : option SegmentInfo :=
  SegmentInfo_new (seginfo_dat sh i).


(** The tables hold what the container stores for the indices [d], and
    nothing else. *)
Definition filled (sh : SelfHeader) (d : list Z) (t : Tables) : Prop :=
  (forall i, i ∈ d ->
     is_Some (stored_phdr sh i) /\ is_Some (stored_seginfo sh i)
     /\ elf_phdrs t !! i = stored_phdr sh i
     /\ segment_infos t !! i = stored_seginfo sh i)
  /\ (forall i, i ∉ d ->
       elf_phdrs t !! i = None /\ segment_infos t !! i = None)
  /\ (encrypted t = true <->
       exists i si, i ∈ d /\ stored_seginfo sh i = Some si
                    /\ plaintext si = NO).

(** *** The executable image of a plaintext container

    The image is described by position: the ELF header, the program
    header table behind it, and from there on, at every file position,
    the byte of the segment whose file range holds the position, or zero
    where no segment does.  It ends where the last segment ends. *)








End Stored.
(** * Reasoning about computations *)

Section Reasoning.
Context `{E : Externals}.

Lemma bind_run {A B} (m : M A) (f : A -> M B) s :
  (m ≫= f) s =
  match m s with
  | (s', Ok a) => f a s'
  | (s', Raise e) => (s', Raise e)
  end.
Proof. reflexivity. Qed.

Lemma bind_ok {A B} (m : M A) (f : A -> M B) s s' a :
  m s = (s', Ok a) -> (m ≫= f) s = f a s'.
Proof. intros H. rewrite bind_run, H. reflexivity. Qed.

Lemma bind_raise {A B} (m : M A) (f : A -> M B) s s' e :
  m s = (s', Raise e) -> (m ≫= f) s = (s', Raise e).
Proof. intros H. rewrite bind_run, H. reflexivity. Qed.

Lemma bind_inv_ok {A B} (m : M A) (f : A -> M B) s s2 b :
  (m ≫= f) s = (s2, Ok b) ->
  exists s1 a, m s = (s1, Ok a) /\ f a s1 = (s2, Ok b).
Proof.
  rewrite bind_run. destruct (m s) as [s1 [a|e]]; intros H.
  - exists s1, a. split; [reflexivity | exact H].
  - discriminate H.
Qed.

(** A property of the state that a computation keeps, however it ends. *)
Definition keeps (P : State -> Prop) {A} (m : M A) : Prop :=
  forall s, P s -> P (m s).1.

Lemma keeps_ret P {A} (a : A) : keeps P (mret a).
Proof. intros s H. exact H. Qed.

Lemma keeps_raise P {A} e : keeps P (@raise _ A e).
Proof. intros s H. exact H. Qed.

Lemma keeps_bind P {A B} (m : M A) (f : A -> M B) :
  keeps P m -> (forall a, keeps P (f a)) -> keeps P (m ≫= f).
Proof.
  intros Hm Hf s H. rewrite bind_run. specialize (Hm s H).
  destruct (m s) as [s1 [a|e]]; simpl in *.
  - apply Hf, Hm.
  - exact Hm.
Qed.

Lemma keeps_from_option P {A} e (o : option A) : keeps P (from_option e o).
Proof. destruct o; [apply keeps_ret | apply keeps_raise]. Qed.

Lemma keeps_for_each P {X A} (body : X -> A -> M A) xs :
  (forall x a, x ∈ xs -> keeps P (body x a)) ->
  forall a, keeps P (for_each body xs a).
Proof.
  induction xs as [|x xs IH]; intros Hb a; simpl.
  - apply keeps_ret.
  - apply keeps_bind.
    + apply Hb. left.
    + intros a'. apply IH. intros y b Hy. apply Hb. right. exact Hy.
Qed.

End Reasoning.

(** Symbolic execution: unfold the operations and follow every branch. *)
Ltac unfold_ops :=
  unfold from_option, print_unless, raise, mbind, M_bind, mret, M_ret,
    inf_seek, inf_read, outf_write, get_at, set_at, print, visit,
    call_get_segments in *.

Ltac run :=
  unfold_ops; simpl in *;
  repeat (case_match; simpl in *; simplify_eq);
  simpl in *;
  repeat match goal with
         | H : (_ <? _) = false |- _ => apply Z.ltb_ge in H
         | H : (_ <? _) = true |- _ => apply Z.ltb_lt in H
         end.


Ltac option_rw :=
  repeat match goal with
         | Ha : ?x = _, Hb : context [option_bind _ _ _ ?x] |- _ =>
             rewrite Ha in Hb; simpl in Hb
         end.

(** ** Frame properties *)

Section Frames.
Context `{E : Externals}.

(** [P] looks at the state through [f] only. *)
Definition through {X} (f : State -> X) (P : State -> Prop) : Prop :=
  forall s s', f s = f s' -> P s -> P s'.

Lemma keeps_through {X} (f : State -> X) P {A} (m : M A) :
  through f P -> (forall s, f (m s).1 = f s) -> keeps P m.
Proof. intros HP Hm s H. apply (HP s); [symmetry; apply Hm | exact H]. Qed.

Lemma through_eq {X} (f : State -> X) c : through f (fun s => f s = c).
Proof. intros s s' H Hs. congruence. Qed.

End Frames.

(** [frame f] proves that a computation keeps a property that looks at
    the state through [f], when no operation of the computation touches
    [f]. *)
Ltac frame f :=
  repeat first
    [ apply keeps_ret
    | apply keeps_raise
    | apply keeps_from_option
    | apply keeps_for_each; intros ? ? _
    | match goal with
      | |- keeps _ (if ?c then _ else _) => destruct c
      | |- keeps _ (match ?c with _ => _ end) => destruct c
      end
    | progress cbv zeta
    | apply keeps_bind; [|intros ?]
    | apply (keeps_through f);
      [ first [assumption | apply through_eq]
      | solve [intros ?; unfold_ops; simpl; repeat case_match; reflexivity] ] ].

Section FrameLemmas.
Context `{E : Externals}.
Variable inf : bytes.

(** The header chain touches the input stream and the diagnostics
    only. *)
Definition beyond_io (s : State) : bytes * Z * list LookupArgs * list (Z * Z) :=
  (out s, at_ s, lookups s, visited s).

Lemma keeps_read_headers P silent ign :
  through beyond_io P -> keeps P (read_headers inf silent ign).
Proof. intros HP. unfold read_headers, read_infos, read_control_info. frame beyond_io. Qed.

(** Only [get_segments] is recorded in [lookups], only the second loop in
    [visited]. *)
Lemma keeps_lookups_copy_elf_header P silent sh :
  through lookups P -> keeps P (copy_elf_header inf silent sh).
Proof. intros HP. unfold copy_elf_header. frame lookups. Qed.

Lemma keeps_lookups_read_tables P silent sh h :
  through lookups P -> keeps P (read_tables inf silent sh h).
Proof.
  intros HP. unfold read_tables, read_segment_entry. frame lookups.
Qed.

Lemma keeps_lookups_generate_elf P silent h t scesegs :
  through lookups P -> keeps P (generate_elf inf silent h t scesegs).
Proof.
  intros HP.
  unfold generate_elf, dump_segment, resolve_idx, transform_segment.
  frame lookups.
Qed.

Lemma keeps_visited_copy_elf_header P silent sh :
  through visited P -> keeps P (copy_elf_header inf silent sh).
Proof. intros HP. unfold copy_elf_header. frame visited. Qed.

Lemma keeps_visited_read_tables P silent sh h :
  through visited P -> keeps P (read_tables inf silent sh h).
Proof.
  intros HP. unfold read_tables, read_segment_entry. frame visited.
Qed.

Lemma keeps_visited_get_keys P silent klictxt sce ai v t :
  through visited P -> keeps P (get_keys inf silent klictxt sce ai v t).
Proof. intros HP. unfold get_keys. frame visited. Qed.

End FrameLemmas.

(** ** The body of the second loop *)

Section Body.
Context `{E : Externals}.
Variable inf : bytes.

Lemma resolve_idx_run scesegs i s :
  resolve_idx scesegs i s =
  (s, match resolved scesegs i with
      | Some idx => Ok idx
      | None => Raise KeyError
      end).
Proof.
  unfold resolve_idx, resolved. destruct (decide _); [reflexivity|].
  rewrite bind_run. destruct (scesegs !! i); reflexivity.
Qed.

Lemma transform_segment_ok scesegs si i raw p s :
  payload scesegs si i raw = Some p ->
  transform_segment scesegs si i raw s = (s, Ok p).
Proof.
  unfold payload, decrypted, transform_segment. intros H.
  destruct (decide (plaintext si = NO)), (decide (compressed si = YES));
    simpl in H; run; option_rw; congruence.
Qed.

Lemma transform_segment_raise scesegs si i raw s :
  payload scesegs si i raw = None ->
  exists e, transform_segment scesegs si i raw s = (s, Raise e).
Proof.
  unfold payload, decrypted, transform_segment. intros H.
  destruct (decide (plaintext si = NO)), (decide (compressed si = YES));
    simpl in H; run; option_rw; try congruence; eexists; reflexivity.
Qed.



Lemma dump_segment_negative_pad silent t scesegs i s idx phdr :
  resolved scesegs i = Some idx ->
  elf_phdrs t !! idx = Some phdr ->
  p_filesz phdr <> 0 ->
  p_offset phdr - at_ s < 0 ->
  dump_segment inf silent t scesegs i tt s =
  (mkState (in_pos s) (in_log s) (out s) (at_ s)
     ((stdout s ++ if silent then [] else [PrintDumping idx])
      ++ [PrintPadLen (p_offset phdr - at_ s)])
     (lookups s) (visited s ++ [(i, idx)]),
   Raise RuntimeError).
Proof.
  intros Hr Hp Hz Hn. unfold dump_segment.
  rewrite bind_run, resolve_idx_run, Hr. run; try lia.
  - rewrite app_nil_r. reflexivity.
  - reflexivity.
Qed.


End Body.

(** * The output cursor *)

Section Cursor.
Context `{E : Externals}.
Variable inf : bytes.

Lemma keeps_tracked_seek off : keeps tracked (inf_seek off).
Proof. intros s H. unfold inf_seek. destruct (off <? 0); exact H. Qed.

Lemma keeps_tracked_read n : keeps tracked (inf_read inf n).
Proof. intros s H. exact H. Qed.

Lemma keeps_tracked_print m : keeps tracked (print m).
Proof. intros s H. exact H. Qed.

Lemma keeps_tracked_print_unless b m : keeps tracked (print_unless b m).
Proof. destruct b; [apply keeps_ret | apply keeps_tracked_print]. Qed.

Lemma keeps_tracked_visit i j : keeps tracked (visit i j).
Proof. intros s H. exact H. Qed.

Lemma keeps_tracked_get_segments sce v t k c q :
  keeps tracked (call_get_segments inf sce v t k c q).
Proof.
  intros s H. unfold call_get_segments.
  destruct (get_segments _ _ _ _ _ _ _ _) as [[d|] pos']; exact H.
Qed.

(** A write followed by the matching advance of [at]. *)
Lemma keeps_tracked_write_advance {A} dat n (k : M A) :
  Z.of_nat (length dat) = n ->
  keeps tracked k ->
  keeps tracked (outf_write dat ;; a ← get_at; set_at (a + n) ;; k).
Proof.
  intros Hn Hk s H. unfold tracked in *.
  rewrite !bind_run. simpl. apply Hk. simpl.
  rewrite length_app. lia.
Qed.

Lemma length_zeros n : 0 <= n -> Z.of_nat (length (zeros n)) = n.
Proof. intros H. unfold zeros. rewrite length_replicate. lia. Qed.

Lemma keeps_tracked_transform scesegs si i dat :
  keeps tracked (transform_segment scesegs si i dat).
Proof.
  unfold transform_segment. apply keeps_bind.
  - destruct (decide _); [|apply keeps_ret].
    apply keeps_bind; [apply keeps_from_option|].
    intros seg. apply keeps_from_option.
  - intros d. destruct (decide _); [apply keeps_from_option | apply keeps_ret].
Qed.

Lemma keeps_tracked_read_segment_entry silent sh i t :
  (forall dat h, ElfPhdr_new dat = Some h ->
                 Z.of_nat (length dat) = ElfPhdr_Size) ->
  keeps tracked (read_segment_entry inf silent sh i t).
Proof.
  intros Hlen. unfold read_segment_entry.
  apply keeps_bind; [apply keeps_tracked_seek|]. intros _.
  apply keeps_bind; [apply keeps_tracked_read|]. intros dat.
  destruct (ElfPhdr_new dat) as [phdr|] eqn:Hd; simpl.
  2:{ intros s H. exact H. }
  apply (keeps_bind _ (mret phdr)); [apply keeps_ret|]. intros phdr'.
  apply keeps_bind; [apply keeps_tracked_print_unless|]. intros _.
  apply keeps_tracked_write_advance; [eapply Hlen, Hd|].
  apply keeps_bind; [apply keeps_tracked_seek|]. intros _.
  apply keeps_bind; [apply keeps_tracked_read|]. intros dat'.
  apply keeps_bind; [apply keeps_from_option|]. intros si.
  apply keeps_bind; [apply keeps_tracked_print_unless|]. intros _.
  apply keeps_ret.
Qed.

Lemma read_segment_entry_ok silent sh i t s s' t' :
  read_segment_entry inf silent sh i t s = (s', Ok t') ->
  exists phdr si,
    stored_phdr inf sh i = Some phdr
    /\ stored_seginfo inf sh i = Some si
    /\ t' = {| elf_phdrs := <[i := phdr]> (elf_phdrs t);
               segment_infos := <[i := si]> (segment_infos t);
               encrypted := if decide (plaintext si = NO) then true
                            else encrypted t |}
    /\ out s' = out s ++ phdr_dat inf sh i
    /\ at_ s' = at_ s + ElfPhdr_Size
    /\ lookups s' = lookups s /\ visited s' = visited s.
Proof.
  unfold read_segment_entry, stored_phdr, stored_seginfo, phdr_dat, seginfo_dat.
  intros H. run.
  all: eexists _, _; split; [eassumption|]; split; [eassumption|].
  all: match goal with Hd : decide _ = _ |- _ => rewrite Hd end.
  all: repeat split; done.
Qed.

(** What an iteration of the second loop writes is what it adds to [at]. *)
Lemma dump_segment_accounted silent t scesegs i s :
  exists w, out (dump_segment inf silent t scesegs i tt s).1 = out s ++ w
            /\ at_ (dump_segment inf silent t scesegs i tt s).1
               = at_ s + Z.of_nat (length w).
Proof.
  unfold dump_segment, resolve_idx.
  assert (Hnil : forall s' : State,
             out s' = out s -> at_ s' = at_ s -> exists w,
             out s' = out s ++ w /\ at_ s' = at_ s + Z.of_nat (length w)).
  { intros s' -> ->. exists []. rewrite app_nil_r. simpl. split; [done | lia]. }
  unfold transform_segment. run.
  all: try (apply Hnil; reflexivity).
  all: simpl.
  all: first
    [ eexists; split; [reflexivity | rewrite length_zeros by lia; lia]
    | eexists; split;
      [ rewrite <- app_assoc; reflexivity
      | rewrite length_app, Nat2Z.inj_add, length_zeros by lia; lia ] ].
Qed.

Lemma keeps_tracked_dump_segment silent t scesegs i u :
  keeps tracked (dump_segment inf silent t scesegs i u).
Proof.
  intros s H. destruct u.
  destruct (dump_segment_accounted silent t scesegs i s) as (w & Ho & Ha).
  unfold tracked in *. rewrite Ho, Ha, H, length_app. lia.
Qed.

Lemma copy_elf_header_ok silent sh s s' h :
  copy_elf_header inf silent sh s = (s', Ok h) ->
  exists eh,
    ElfHeader_new (read_at inf (elf_offset sh) ElfHeader_Size) = Some eh
    /\ h = strip_sections eh
    /\ out s' = out s ++ ElfHeader_pack h
    /\ at_ s' = ElfHeader_Size
    /\ lookups s' = lookups s /\ visited s' = visited s.
Proof.
  unfold copy_elf_header. intros H. run; eexists; repeat split; done.
Qed.

Lemma copy_elf_header_raise silent sh s s' e :
  copy_elf_header inf silent sh s = (s', Raise e) ->
  out s' = out s /\ at_ s' = at_ s.
Proof. unfold copy_elf_header. intros H. run; done. Qed.

Lemma through_fresh : through beyond_io (fun s => out s = [] /\ at_ s = 0).
Proof. intros s s' [= -> -> _ _] H. exact H. Qed.

Lemma keeps_tracked_get_keys silent klictxt sce ai v t :
  keeps tracked (get_keys inf silent klictxt sce ai v t).
Proof.
  unfold get_keys. destruct (encrypted t);
    [apply keeps_tracked_get_segments | apply keeps_ret].
Qed.

Lemma self2elf_tracked klictxt silent ign pos :
  (forall h, Z.of_nat (length (ElfHeader_pack h)) = ElfHeader_Size) ->
  (forall dat h, ElfPhdr_new dat = Some h ->
                 Z.of_nat (length dat) = ElfPhdr_Size) ->
  tracked (self2elf inf klictxt silent ign (initial pos)).1.
Proof.
  intros Hpack Hphdr. unfold self2elf. rewrite bind_run.
  pose proof (keeps_read_headers inf _ silent ign through_fresh (initial pos)
                (conj eq_refl eq_refl)) as [Ho Ha].
  destruct (read_headers inf silent ign (initial pos))
    as [s1 [[[[sce sh] ai] v]|e]]; simpl in *.
  2:{ unfold tracked. rewrite Ho, Ha. reflexivity. }
  rewrite bind_run.
  destruct (copy_elf_header inf silent sh s1) as [s2 [h|e]] eqn:Hc; simpl.
  2:{ apply copy_elf_header_raise in Hc as [Ho2 Ha2].
      unfold tracked. rewrite Ho2, Ha2, Ho, Ha. reflexivity. }
  apply copy_elf_header_ok in Hc as (eh & _ & _ & Ho2 & Ha2 & _).
  assert (Ht : tracked s2).
  { unfold tracked. rewrite Ho2, Ha2, Ho. simpl. symmetry. apply Hpack. }
  revert Ht. generalize s2.
  change (keeps tracked
    (t ← read_tables inf silent sh h;
     scesegs ← get_keys inf silent klictxt sce ai v t;
     generate_elf inf silent h t scesegs)).
  apply keeps_bind.
  { unfold read_tables. apply keeps_for_each. intros i t _.
    apply keeps_tracked_read_segment_entry, Hphdr. }
  intros t. apply keeps_bind; [apply keeps_tracked_get_keys|].
  intros scesegs. unfold generate_elf. apply keeps_for_each.
  intros i u _. apply keeps_tracked_dump_segment.
Qed.

(** C9. The cursor [at] counts the bytes written to the output: whatever
    the input and however the conversion ends, the cursor it ends with is
    the length of the output.  Copying the header sets it to the header
    size, every program header written adds the entry size, and an
    iteration of the generation loop adds exactly the number of bytes it
    appends.  The output only ever grows by appending. *)
Theorem cursor_accounts_for_output klictxt silent ign pos :
  (forall h, Z.of_nat (length (ElfHeader_pack h)) = ElfHeader_Size) ->
  (forall dat h, ElfPhdr_new dat = Some h ->
                 Z.of_nat (length dat) = ElfPhdr_Size) ->
  tracked (self2elf inf klictxt silent ign (initial pos)).1
  /\ (forall sh s s' h,
        copy_elf_header inf silent sh s = (s', Ok h) ->
        out s' = out s ++ ElfHeader_pack h
        /\ Z.of_nat (length (ElfHeader_pack h)) = ElfHeader_Size
        /\ at_ s' = ElfHeader_Size)
  /\ (forall sh i t s s' t',
        read_segment_entry inf silent sh i t s = (s', Ok t') ->
        out s' = out s ++ phdr_dat inf sh i
        /\ Z.of_nat (length (phdr_dat inf sh i)) = ElfPhdr_Size
        /\ at_ s' = at_ s + ElfPhdr_Size)
  /\ (forall t scesegs i s,
        exists w,
          out (dump_segment inf silent t scesegs i tt s).1 = out s ++ w
          /\ at_ (dump_segment inf silent t scesegs i tt s).1
             = at_ s + Z.of_nat (length w)).
Proof.
  intros Hpack Hphdr. repeat split.
  - apply self2elf_tracked; assumption.
  - apply copy_elf_header_ok in H as (eh & _ & _ & Ho & _). exact Ho.
  - apply Hpack.
  - apply copy_elf_header_ok in H as (eh & _ & _ & _ & Ha & _). exact Ha.
  - apply read_segment_entry_ok in H as (ph & si & _ & _ & _ & Ho & _).
    exact Ho.
  - apply read_segment_entry_ok in H as (ph & si & Hs & _).
    eapply Hphdr, Hs.
  - apply read_segment_entry_ok in H as (ph & si & _ & _ & _ & _ & Ha & _).
    exact Ha.
  - apply dump_segment_accounted.
Qed.

End Cursor.

Lemma sample_pack_length h :
  Z.of_nat (length (Sample.ElfHeader_pack_ h)) = 52.
Proof.
  unfold Sample.ElfHeader_pack_, Sample.le.
  rewrite !length_app, length_take, !length_rev, length_app.
  unfold zeros. rewrite length_replicate.
  assert (Hl : forall n z, length (int_to_bytes_big n z) = n).
  { induction n as [|n IH]; intros z; simpl; [done|].
    rewrite length_app, IH. simpl. lia. }
  rewrite !Hl. lia.
Qed.

Lemma sample_sized {A} n dat (o : option A) a :
  Sample.sized n dat o = Some a -> length dat = n.
Proof. unfold Sample.sized. destruct (decide _); [done | discriminate]. Qed.

Lemma cursor_accounts_for_output_witness :
  tracked (self2elf Sample.plain_container (zeros 16) false false
             (initial 0)).1
  /\ (forall sh s s' h,
        copy_elf_header Sample.plain_container false sh s = (s', Ok h) ->
        out s' = out s ++ ElfHeader_pack h
        /\ Z.of_nat (length (ElfHeader_pack h)) = ElfHeader_Size
        /\ at_ s' = ElfHeader_Size)
  /\ (forall sh i t s s' t',
        read_segment_entry Sample.plain_container false sh i t s
          = (s', Ok t') ->
        out s' = out s ++ phdr_dat Sample.plain_container sh i
        /\ Z.of_nat (length (phdr_dat Sample.plain_container sh i))
           = ElfPhdr_Size
        /\ at_ s' = at_ s + ElfPhdr_Size)
  /\ (forall t scesegs i s,
        exists w,
          out (dump_segment Sample.plain_container false t scesegs i tt s).1
            = out s ++ w
          /\ at_ (dump_segment Sample.plain_container false t scesegs i tt s).1
             = at_ s + Z.of_nat (length w)).
Proof.
  apply (cursor_accounts_for_output Sample.plain_container (zeros 16)
           false false 0).
  - exact sample_pack_length.
  - intros dat h H. apply sample_sized in H. simpl. lia.
Defined.


(** * Padding *)

Section Padding.
Context `{E : Externals}.
Variable inf : bytes.

Lemma transform_segment_payload scesegs si i raw s s' p :
  transform_segment scesegs si i raw s = (s', Ok p) ->
  s' = s /\ payload scesegs si i raw = Some p.
Proof.
  intros H. destruct (payload scesegs si i raw) as [p'|] eqn:Hp.
  - rewrite (transform_segment_ok _ _ _ _ _ s Hp) in H. by simplify_eq.
  - destruct (transform_segment_raise _ _ _ _ s Hp) as [e He]. congruence.
Qed.

Lemma transform_segment_state scesegs si i raw s :
  (transform_segment scesegs si i raw s).1 = s.
Proof.
  destruct (payload scesegs si i raw) as [p'|] eqn:Hp.
  - by rewrite (transform_segment_ok _ _ _ _ _ s Hp).
  - destruct (transform_segment_raise _ _ _ _ s Hp) as [e ->]. done.
Qed.

Lemma dump_segment_padded silent t scesegs i s idx phdr :
  resolved scesegs i = Some idx ->
  elf_phdrs t !! idx = Some phdr ->
  p_filesz phdr <> 0 ->
  0 <= p_offset phdr - at_ s ->
  exists rest,
    out (dump_segment inf silent t scesegs i tt s).1
      = out s ++ zeros (p_offset phdr - at_ s) ++ rest
    /\ at_ (dump_segment inf silent t scesegs i tt s).1
       = at_ s + (p_offset phdr - at_ s) + Z.of_nat (length rest)
    /\ ((dump_segment inf silent t scesegs i tt s).2 = Ok tt ->
        exists si, segment_infos t !! idx = Some si
          /\ payload scesegs si i (read_at inf (offset si) (size si))
             = Some rest).
Proof.
  intros Hr Hp Hz Hn. unfold dump_segment.
  rewrite bind_run, resolve_idx_run, Hr.
  run; try lia.
  all: try match goal with
       | H : transform_segment _ _ _ _ ?s = (?s', Ok _) |- _ =>
           apply transform_segment_payload in H as [-> ?]
       | H : transform_segment ?a ?b ?c ?d ?s = (?s', Raise _) |- _ =>
           let Hs := fresh in
           pose proof (transform_segment_state a b c d s) as Hs;
           rewrite H in Hs; simpl in Hs; subst s'
       end; simpl.
  all: try (exists []; rewrite app_nil_r; split; [reflexivity|];
      split; [simpl; lia | intros ?; discriminate]).
  all: first
    [ eexists; split; [rewrite <- app_assoc; reflexivity|];
      split; [lia|]; intros _; eexists; split; [reflexivity|]; assumption
    | exists []; rewrite app_nil_r; split; [reflexivity|];
      split; [simpl; lia | intros ?; discriminate] ].
Qed.


End Padding.


(** * The machine-type sentinel *)

Section Sentinel.
Context `{E : Externals}.
Variable inf : bytes.

(** C7. The header that is written is the packed form of the header read
    at the ELF offset, adjusted: when its machine type is [0xf00d] the
    section-header count and offset are zero whatever they were and
    every other field is the one read; when the machine type is anything
    else the header is the one read, these two fields included.  Where
    the constructor inverts [pack] on it, this is the header read back
    from the output. *)
Theorem sentinel_strips_section_headers silent sh s s' h :
  copy_elf_header inf silent sh s = (s', Ok h) ->
  exists eh,
    ElfHeader_new (read_at inf (elf_offset sh) ElfHeader_Size) = Some eh
    /\ out s' = out s ++ ElfHeader_pack h
    /\ (e_machine eh = 0xf00d ->
        e_shnum h = 0 /\ e_shoff h = 0
        /\ e_ident h = e_ident eh /\ e_type h = e_type eh
        /\ e_machine h = e_machine eh /\ e_version h = e_version eh
        /\ e_entry h = e_entry eh /\ e_phoff h = e_phoff eh
        /\ e_flags h = e_flags eh /\ e_ehsize h = e_ehsize eh
        /\ e_phentsize h = e_phentsize eh /\ e_phnum h = e_phnum eh
        /\ e_shentsize h = e_shentsize eh /\ e_shstrndx h = e_shstrndx eh)
    /\ (e_machine eh <> 0xf00d -> h = eh)
    /\ (ElfHeader_new (ElfHeader_pack h) = Some h ->
        ElfHeader_new (drop (length (out s)) (out s')) = Some h).
Proof.
  intros H.
  apply copy_elf_header_ok in H as (eh & Hd & -> & Ho & _).
  exists eh. split; [exact Hd|]. split; [exact Ho|].
  unfold strip_sections. repeat split.
  all: try (destruct (decide (e_machine eh = 0xf00d)); [reflexivity | done]).
  - intros Hm. destruct (decide (e_machine eh = 0xf00d)); done.
  - intros Hr. rewrite Ho, drop_app_length. exact Hr.
Qed.

End Sentinel.

Lemma sentinel_strips_section_headers_witness :
  exists eh,
    ElfHeader_new (read_at Sample.f00d_container 520 52) = Some eh
    /\ out Sample.f00d_copied = [] ++ ElfHeader_pack (Sample.f00d_header 0 0)
    /\ (e_machine eh = 0xf00d ->
        e_shnum (Sample.f00d_header 0 0) = 0
        /\ e_shoff (Sample.f00d_header 0 0) = 0).
Proof.
  destruct (sentinel_strips_section_headers (E := Sample.externals)
              Sample.f00d_container true
              Sample.sample_self_header (initial 0) Sample.f00d_copied
              (Sample.f00d_header 0 0))
    as (eh & Hd & Ho & Hm & _).
  - reflexivity.
  - exists eh. split; [exact Hd|]. split; [exact Ho|].
    intros H. destruct (Hm H) as (H1 & H2 & _). split; assumption.
Defined.

(** * The control-info chain *)

Section ControlInfo.
Context `{E : Externals}.
Variable inf : bytes.

Lemma self2elf_lookups klictxt silent ign pos s1 sce sh ai v :
  read_headers inf silent ign (initial pos) = (s1, Ok (sce, sh, ai, v)) ->
  let sf := (self2elf inf klictxt silent ign (initial pos)).1 in
  lookups sf = []
  \/ lookups sf =
     [mkLookupArgs sce (sys_version ai) (self_type ai) v klictxt silent].
Proof.
  intros H sf. subst sf. unfold self2elf. rewrite (bind_ok _ _ _ _ _ H).
  assert (H1 : lookups s1 = []).
  { pose proof (keeps_read_headers inf (fun s => lookups s = []) silent ign)
      as Hk.
    specialize (Hk ltac:(intros ? ? [= _ _ -> _]; done) (initial pos) eq_refl).
    rewrite H in Hk. exact Hk. }
  rewrite bind_run.
  pose proof (keeps_lookups_copy_elf_header inf _ silent sh
                (through_eq lookups []) s1 H1) as H2.
  destruct (copy_elf_header inf silent sh s1) as [s2 [h|e]]; simpl in *;
    [|by left].
  rewrite bind_run.
  pose proof (keeps_lookups_read_tables inf _ silent sh h
                (through_eq lookups []) s2 H2) as H3.
  destruct (read_tables inf silent sh h s2) as [s3 [t|e]]; simpl in *;
    [|by left].
  rewrite bind_run.
  assert (H4 : let s4 := (get_keys inf silent klictxt sce ai v t s3).1 in
               lookups s4 = []
               \/ lookups s4 = [mkLookupArgs sce (sys_version ai)
                                  (self_type ai) v klictxt silent]).
  { unfold get_keys. destruct (encrypted t); [|by left].
    right. unfold call_get_segments.
    destruct (get_segments _ _ _ _ _ _ _ _) as [[d|] pos']; simpl;
      rewrite H3; reflexivity. }
  destruct (get_keys inf silent klictxt sce ai v t s3) as [s4 [d|e]];
    simpl in *; [|exact H4].
  destruct H4 as [H4|H4]; [left|right].
  all: apply (keeps_lookups_generate_elf inf _ silent h t d
                (through_eq lookups _) s4 H4).
Qed.

(** C6. On a header chain that parses, the digest record is read exactly
    when the first control-info header carries the digest tag; with any
    other tag nothing is read for it and the offset of the second
    control-info header is not advanced.  The second header is read in
    both cases.  The NPDRM type is the field of the DRM record when the
    second header carries the DRM tag and 0 otherwise, and it is the
    value handed to the key lookup. *)
Theorem control_info_chain klictxt silent ign pos s1 sce sh ai v :
  read_headers inf silent ign (initial pos) = (s1, Ok (sce, sh, ai, v)) ->
  let co := controlinfo_offset sh in
  exists ci1 ci2,
    SceControlInfo_new (read_at inf co SceControlInfo_Size) = Some ci1
    /\ let slot :=
         if decide (type ci1 = DIGEST_SHA256)
         then co + (SceControlInfo_Size + SceControlInfoDigest256_Size)
         else co + SceControlInfo_Size in
       SceControlInfo_new (read_at inf slot SceControlInfo_Size) = Some ci2
       /\ in_log s1 =
          [Read SceHeader_Size; Read SelfHeader_Size;
           Seek (appinfo_offset sh); Read AppInfoHeader_Size;
           Seek (sceversion_offset sh); Read SceVersionInfo_Size;
           Seek co; Read SceControlInfo_Size]
          ++ (if decide (type ci1 = DIGEST_SHA256)
              then [Seek (co + SceControlInfo_Size);
                    Read SceControlInfoDigest256_Size]
              else [])
          ++ [Seek slot; Read SceControlInfo_Size]
          ++ (if decide (type ci2 = NPDRM_VITA)
              then [Seek (slot + SceControlInfo_Size);
                    Read SceControlInfoDRM_Size]
              else [])
       /\ (type ci2 = NPDRM_VITA ->
           exists drm,
             SceControlInfoDRM_new
               (read_at inf (slot + SceControlInfo_Size)
                  SceControlInfoDRM_Size) = Some drm
             /\ v = npdrm_type drm)
       /\ (type ci2 <> NPDRM_VITA -> v = 0)
       /\ let sf := (self2elf inf klictxt silent ign (initial pos)).1 in
          (lookups sf = []
           \/ lookups sf =
              [mkLookupArgs sce (sys_version ai) (self_type ai) v klictxt
                 silent]).
Proof.
  intros H co.
  pose proof (self2elf_lookups klictxt silent ign pos s1 sce sh ai v H) as HL.
  revert HL. generalize (self2elf inf klictxt silent ign (initial pos)).1.
  intros sf HL. subst co.
  unfold read_headers, read_infos, read_control_info in H.
  run.
  all: eexists _, _; split; [eassumption|].
  all: match goal with
       | Hd : decide (type _ = DIGEST_SHA256) = _ |- _ => rewrite Hd
       end.
  all: split; [eassumption|].
  all: match goal with
       | Hd : decide (type _ = NPDRM_VITA) = _ |- _ => rewrite Hd
       end.
  all: simpl; rewrite <- ?app_assoc; simpl.
  all: rewrite ?Z.add_assoc in *.
  all: split; [reflexivity|].
  all: split; [first [ intros _; eexists; split; [eassumption | reflexivity]
                     | intros; congruence ]|].
  all: split; [first [ intros; reflexivity | intros; congruence ]|].
  all: exact HL.
Qed.

End ControlInfo.

Lemma control_info_chain_witness :
  exists ci1 ci2,
    type ci1 = DIGEST_SHA256 /\ type ci2 = NPDRM_VITA
    /\ SceControlInfo_new (read_at Sample.plain_container 168 16) = Some ci1
    /\ SceControlInfo_new (read_at Sample.plain_container (168 + (16 + 64)) 16)
       = Some ci2
    /\ in_log Sample.plain_headers_read =
       [Read 32; Read 88; Seek 120; Read 32; Seek 152; Read 16;
        Seek 168; Read 16; Seek 184; Read 64; Seek 248; Read 16;
        Seek 264; Read 256].
Proof.
  destruct (control_info_chain (E := Sample.externals) Sample.plain_container
              (zeros 16) true false 0 Sample.plain_headers_read
              (Sample.mkSceHeader 708 0 0) Sample.sample_self_header
              (mkAppInfoHeader 8 0x03600000) 2 eq_refl)
    as (ci1 & ci2 & H1 & H2 & H3 & _).
  assert (T1 : type ci1 = DIGEST_SHA256).
  { injection H1 as <-. reflexivity. }
  destruct (decide (type ci1 = DIGEST_SHA256)); [|done].
  assert (T2 : type ci2 = NPDRM_VITA).
  { injection H2 as <-. reflexivity. }
  destruct (decide (type ci2 = NPDRM_VITA)); [|done].
  exists ci1, ci2. repeat split; assumption.
Defined.

(** * The first loop *)

Section TablesLoop.
Context `{E : Externals}.
Variable inf : bytes.

Lemma for_each_ok_ind {X A} (body : X -> A -> M A)
    (I : list X -> A -> State -> Prop) xs :
  (forall d x a s a' s', x ∈ xs ->
     I d a s -> body x a s = (s', Ok a') -> I (d ++ [x]) a' s') ->
  forall done a s a' s',
    I done a s -> for_each body xs a s = (s', Ok a') -> I (done ++ xs) a' s'.
Proof.
  induction xs as [|x xs IH]; intros Hb done a s a' s' HI H; simpl in H.
  - unfold mret, M_ret in H. simplify_eq. by rewrite app_nil_r.
  - apply bind_inv_ok in H as (s1 & a1 & H1 & H2).
    replace (done ++ x :: xs) with ((done ++ [x]) ++ xs)
      by (by rewrite <- app_assoc).
    eapply IH; [|eapply Hb; [left|exact HI|exact H1]|exact H2].
    intros d y b s0 b' s0' Hy. apply Hb. by right.
Qed.

Lemma filled_step sh d t i ph si :
  i ∉ d ->
  filled inf sh d t ->
  stored_phdr inf sh i = Some ph ->
  stored_seginfo inf sh i = Some si ->
  filled inf sh (d ++ [i])
    {| elf_phdrs := <[i := ph]> (elf_phdrs t);
       segment_infos := <[i := si]> (segment_infos t);
       encrypted := if decide (plaintext si = NO) then true
                    else encrypted t |}.
Proof.
  intros Hi (Hin & Hout & Henc) Hp Hs. split; [|split]; simpl.
  - intros j Hj. apply elem_of_app in Hj as [Hj|Hj].
    + assert (i <> j) by (intros ->; done).
      rewrite !lookup_insert_ne by done. apply Hin, Hj.
    + apply list_elem_of_singleton in Hj as ->.
      rewrite !lookup_insert_eq, Hp, Hs. repeat split; eauto.
  - intros j Hj. rewrite elem_of_app, list_elem_of_singleton in Hj.
    assert (i <> j) by (intros ->; tauto).
    rewrite !lookup_insert_ne by done. apply Hout. tauto.
  - destruct (decide (plaintext si = NO)) as [Hn|Hn]; split.
    + intros _. exists i, si. rewrite elem_of_app, list_elem_of_singleton. tauto.
    + done.
    + intros He. apply Henc in He as (j & sj & Hj & Hsj & Hnj).
      exists j, sj. rewrite elem_of_app. tauto.
    + intros (j & sj & Hj & Hsj & Hnj). apply Henc.
      apply elem_of_app in Hj as [Hj|Hj]; [by exists j, sj|].
      apply list_elem_of_singleton in Hj as ->. congruence.
Qed.

Lemma filled_nil sh :
  filled inf sh [] {| elf_phdrs := ∅; segment_infos := ∅; encrypted := false |}.
Proof.
  split; [|split]; simpl.
  - intros i Hi. by apply elem_of_nil in Hi.
  - intros i _. by rewrite !lookup_empty.
  - split; [done|]. intros (i & si & Hi & _). by apply elem_of_nil in Hi.
Qed.

(** What the first loop has done when it ends normally. *)
Definition tables_read (sh : SelfHeader) (s0 : State) (d : list Z)
    (t : Tables) (s : State) : Prop :=
  NoDup d /\ filled inf sh d t
  /\ out s = out s0 ++ concat (phdr_dat inf sh <$> d)
  /\ at_ s = at_ s0 + Z.of_nat (length d) * ElfPhdr_Size
  /\ lookups s = lookups s0 /\ visited s = visited s0.

Lemma read_tables_ok silent sh h s s' t :
  read_tables inf silent sh h s = (s', Ok t) ->
  tables_read sh s (range (e_phnum h)) t s'.
Proof.
  unfold read_tables. intros H.
  pose proof (NoDup_seqZ 0 (e_phnum h)) as Hnd. fold (range (e_phnum h)) in Hnd.
  revert Hnd H. generalize (range (e_phnum h)). intros xs Hnd H.
  assert (Hgen : (fun d t s' => NoDup d -> tables_read sh s d t s')
                   ([] ++ xs) t s').
  { eapply (for_each_ok_ind (read_segment_entry inf silent sh)
              (fun d t s' => NoDup d -> tables_read sh s d t s')); [| |exact H].
    - intros d i t0 s0 t1 s1 Hi HI Hb Hnd1.
      apply NoDup_app in Hnd1 as (Hnd1 & Hni & _).
      destruct (HI Hnd1) as (_ & Hf & Ho & Ha & Hl & Hv).
      apply read_segment_entry_ok in Hb
        as (ph & si & Hp & Hs & -> & Ho1 & Ha1 & Hl1 & Hv1).
      split; [|split; [|split; [|split; [|split]]]].
      + apply NoDup_app. repeat split; [done | | apply NoDup_singleton].
        intros x Hx Hx'. eapply Hni; eauto.
      + apply filled_step; try done. intros Hd. eapply Hni; [exact Hd|left].
      + rewrite Ho1, Ho, fmap_app, concat_app. simpl.
        rewrite app_nil_r, app_assoc. reflexivity.
      + rewrite Ha1, Ha, length_app. simpl. lia.
      + congruence.
      + congruence.
    - intros _. split; [constructor|]. split; [apply filled_nil|].
      simpl. rewrite app_nil_r. repeat split; lia. }
  apply Hgen, Hnd.
Qed.

End TablesLoop.

(** * The order of the generation loop *)

Section Visits.
Context `{E : Externals}.
Variable inf : bytes.

(** A loop that ends normally has run its body on every element, in
    order; a loop that raises has done so on a prefix. *)
Lemma for_each_progress {X A} (body : X -> A -> M A)
    (I : list X -> State -> Prop) xs :
  (forall d x a s, I d s ->
     match (body x a s).2 with
     | Ok _ => I (d ++ [x]) (body x a s).1
     | Raise _ => I d (body x a s).1 \/ I (d ++ [x]) (body x a s).1
     end) ->
  forall done a s, I done s ->
    exists d', d' `prefix_of` xs
      /\ I (done ++ d') (for_each body xs a s).1
      /\ (forall a', (for_each body xs a s).2 = Ok a' -> d' = xs).
Proof.
  intros Hbody. induction xs as [|x xs IH]; intros done a s HI; simpl.
  - exists []. rewrite app_nil_r. repeat split; done.
  - rewrite bind_run. specialize (Hbody done x a s HI).
    destruct (body x a s) as [s1 [a1|e]]; simpl in *.
    + destruct (IH (done ++ [x]) a1 s1 Hbody) as (d' & Hp & Hd & Hok).
      exists (x :: d'). split; [by apply prefix_cons|].
      rewrite <- app_assoc in Hd. split; [exact Hd|].
      intros a' Ha. f_equal. eapply Hok, Ha.
    + destruct Hbody as [Hb|Hb].
      * exists []. rewrite app_nil_r.
        split; [apply prefix_nil|]. split; [exact Hb | discriminate].
      * exists [x]. split; [apply prefix_cons, prefix_nil|].
        split; [exact Hb | discriminate].
Qed.

Lemma dump_segment_visited silent t scesegs i s :
  let res := dump_segment inf silent t scesegs i tt s in
  match resolved scesegs i with
  | Some idx => visited res.1 = visited s ++ [(i, idx)]
  | None => visited res.1 = visited s /\ res.2 = Raise KeyError
  end.
Proof.
  unfold dump_segment. rewrite bind_run, resolve_idx_run.
  destruct (resolved scesegs i) as [idx|]; [|done].
  unfold transform_segment. run; reflexivity.
Qed.

Lemma generate_elf_journal silent h t scesegs s :
  visited s = [] ->
  let res := generate_elf inf silent h t scesegs s in
  exists d', d' `prefix_of` range (e_phnum h)
    /\ journal_of scesegs d' res.1
    /\ (res.2 = Ok tt -> d' = range (e_phnum h)).
Proof.
  intros Hv res. subst res. unfold generate_elf.
  destruct (for_each_progress (dump_segment inf silent t scesegs)
              (journal_of scesegs) (range (e_phnum h))) with
    (done := @nil Z) (a := tt) (s := s) as (d' & Hp & Hj & Hok).
  - intros d i [] s0 Hj.
    pose proof (dump_segment_visited silent t scesegs i s0) as Hd.
    simpl in Hd. unfold journal_of in *.
    destruct (resolved scesegs i) as [idx|] eqn:Hr.
    + rewrite Hd.
      assert (Forall2 (fun i p => p.1 = i /\ resolved scesegs i = Some p.2)
                (d ++ [i]) (visited s0 ++ [(i, idx)])).
      { apply Forall2_app; [exact Hj|]. constructor; [done|constructor]. }
      destruct (dump_segment _ _ _ _ _ _ _).2; [assumption | by right].
    + destruct Hd as [Hd1 Hd2]. rewrite Hd2, Hd1. by left.
  - unfold journal_of. rewrite Hv. constructor.
  - exists d'. split; [exact Hp|]. split; [exact Hj|].
    intros Hr. eapply Hok, Hr.
Qed.

End Visits.

(** * Containers without encrypted segments *)

Section Plaintext.
Context `{E : Externals}.
Variable inf : bytes.

Lemma elem_of_range i n : i ∈ range n <-> 0 <= i < n.
Proof. unfold range. rewrite elem_of_seqZ. lia. Qed.

Lemma resolved_empty i : resolved ∅ i = Some i.
Proof. unfold resolved. destruct (decide _); [reflexivity | done]. Qed.

Lemma journal_identity d s :
  journal_of ∅ d s -> visited s = (fun i => (i, i)) <$> d.
Proof.
  unfold journal_of. generalize (visited s). intros v H.
  induction H as [|i p d v [H1 H2] _ IH]; [done|].
  destruct p as [j k]. simpl in *. rewrite resolved_empty in H2.
  simplify_eq. reflexivity.
Qed.

(** C4. When no segment-info record of the container is marked [NO], the
    key lookup is never called and every iteration of the generation
    loop works on the index it is at: the mapping is the identity, on
    every index when the conversion ends normally. *)
Theorem plaintext_container_needs_no_keys klictxt silent ign pos
    s1 sce sh ai v s2 h :
  read_headers inf silent ign (initial pos) = (s1, Ok (sce, sh, ai, v)) ->
  copy_elf_header inf silent sh s1 = (s2, Ok h) ->
  (forall i si, 0 <= i < e_phnum h ->
     stored_seginfo inf sh i = Some si -> plaintext si <> NO) ->
  let sf := (self2elf inf klictxt silent ign (initial pos)).1 in
  let r := (self2elf inf klictxt silent ign (initial pos)).2 in
  lookups sf = []
  /\ Forall (fun p => p.2 = p.1) (visited sf)
  /\ (r = Ok tt -> visited sf = (fun i => (i, i)) <$> range (e_phnum h)).
Proof.
  intros H1 H2 Hplain sf r. subst sf r. unfold self2elf.
  rewrite (bind_ok _ _ _ _ _ H1). simpl. rewrite (bind_ok _ _ _ _ _ H2).
  assert (Hl1 : lookups s1 = [] /\ visited s1 = []).
  { pose proof (keeps_read_headers inf
      (fun s => lookups s = [] /\ visited s = []) silent ign) as Hk.
    specialize (Hk ltac:(intros ? ? [= _ _ -> ->]; done) (initial pos)
                  (conj eq_refl eq_refl)).
    rewrite H1 in Hk. exact Hk. }
  destruct Hl1 as [Hl1 Hv1].
  apply copy_elf_header_ok in H2 as (_ & _ & _ & _ & _ & Hl2 & Hv2).
  rewrite Hl1 in Hl2. rewrite Hv1 in Hv2.
  rewrite bind_run.
  destruct (read_tables inf silent sh h s2) as [s3 [t|e]] eqn:H3; simpl.
  2:{ pose proof (keeps_lookups_read_tables inf _ silent sh h
                    (through_eq lookups []) s2 Hl2) as Hl3.
      pose proof (keeps_visited_read_tables inf _ silent sh h
                    (through_eq visited []) s2 Hv2) as Hv3.
      rewrite H3 in Hl3, Hv3. simpl in *. rewrite Hv3.
      repeat split; [done | constructor | discriminate]. }
  apply read_tables_ok in H3 as (_ & (_ & _ & Henc) & _ & _ & Hl3 & Hv3).
  assert (He : encrypted t = false).
  { destruct (encrypted t); [|done].
    destruct (proj1 Henc eq_refl) as (i & si & Hi & Hs & Hn).
    apply elem_of_range in Hi. exfalso. eapply Hplain; eauto. }
  unfold get_keys. rewrite He, bind_run. simpl.
  pose proof (keeps_lookups_generate_elf inf _ silent h t ∅
                (through_eq lookups []) s3 ltac:(congruence)) as Hl4.
  destruct (generate_elf_journal inf silent h t ∅ s3 ltac:(congruence))
    as (d' & Hp & Hj & Hok).
  apply journal_identity in Hj.
  split; [exact Hl4|]. split.
  - rewrite Hj. apply Forall_fmap, Forall_forall. done.
  - intros Hr. rewrite Hj, (Hok Hr). reflexivity.
Qed.

End Plaintext.

Lemma plaintext_container_needs_no_keys_witness :
  let res := self2elf Sample.plain_container (zeros 16) true false
               (initial 0) in
  lookups res.1 = []
  /\ Forall (fun p => p.2 = p.1) (visited res.1)
  /\ (res.2 = Ok tt -> visited res.1 = (fun i => (i, i)) <$> range 2).
Proof.
  apply (plaintext_container_needs_no_keys (E := Sample.externals)
           Sample.plain_container (zeros 16) true false 0
           Sample.plain_headers_read (Sample.mkSceHeader 708 0 0)
           Sample.sample_self_header (mkAppInfoHeader 8 0x03600000) 2
           Sample.plain_header_copied Sample.plain_header).
  - reflexivity.
  - reflexivity.
  - intros i si Hi. assert (i = 0 \/ i = 1) as [-> | ->] by (simpl in Hi; lia).
    + intros [= <-]. discriminate.
    + intros [= <-]. discriminate.
Defined.

(** * The generation loop under key material *)

Section Order.
Context `{E : Externals}.
Variable inf : bytes.

Lemma resolved_keyed scesegs i :
  scesegs <> ∅ -> resolved scesegs i = idx <$> scesegs !! i.
Proof. intros H. unfold resolved. destruct (decide _); [done | reflexivity]. Qed.

Lemma journal_keyed scesegs d s :
  scesegs <> ∅ ->
  journal_of scesegs d s ->
  (visited s).*1 = d
  /\ (visited s).*2 = omap (fun i => idx <$> scesegs !! i) d
  /\ Forall (fun p => idx <$> scesegs !! p.1 = Some p.2) (visited s).
Proof.
  intros Hne. unfold journal_of. generalize (visited s). intros v H.
  induction H as [|i p d v [H1 H2] _ (IH1 & IH2 & IH3)];
    [repeat split; constructor|].
  rewrite (resolved_keyed _ _ Hne) in H2. destruct p as [j k].
  simpl in *. subst j. rewrite H2. simpl.
  repeat split; [by f_equal | by f_equal |].
  constructor; [exact H2 | exact IH3].
Qed.

Lemma get_keys_visited silent klictxt sce ai v t s s' d :
  get_keys inf silent klictxt sce ai v t s = (s', Ok d) ->
  visited s' = visited s.
Proof.
  intros H.
  pose proof (keeps_visited_get_keys inf _ silent klictxt sce ai v t
                (through_eq visited (visited s)) s eq_refl) as Hk.
  rewrite H in Hk. exact Hk.
Qed.

(** C2, as the code has it.  With key material present, the iterations
    of the generation loop are numbered [0 .. count-1] in ascending
    order and iteration [i] works on the index field of key entry [i];
    a conversion that raises has gone through a prefix of them.  When
    the conversion ends normally and the index fields are a permutation
    of [0 .. count-1] (which nothing in the routine checks), every index
    is worked on exactly once. *)
Theorem generation_order klictxt silent ign pos s1 sce sh ai v s2 h s3 t s4
    scesegs :
  read_headers inf silent ign (initial pos) = (s1, Ok (sce, sh, ai, v)) ->
  copy_elf_header inf silent sh s1 = (s2, Ok h) ->
  read_tables inf silent sh h s2 = (s3, Ok t) ->
  get_keys inf silent klictxt sce ai v t s3 = (s4, Ok scesegs) ->
  scesegs <> ∅ ->
  let res := self2elf inf klictxt silent ign (initial pos) in
  (visited res.1).*1 `prefix_of` range (e_phnum h)
  /\ Forall (fun p => idx <$> scesegs !! p.1 = Some p.2) (visited res.1)
  /\ (res.2 = Ok tt ->
      (visited res.1).*1 = range (e_phnum h)
      /\ (visited res.1).*2 = index_map scesegs (e_phnum h)
      /\ (index_map scesegs (e_phnum h) ≡ₚ range (e_phnum h) ->
          (visited res.1).*2 ≡ₚ range (e_phnum h)
          /\ NoDup (visited res.1).*2)).
Proof.
  intros H1 H2 H3 H4 Hne res. subst res. unfold self2elf.
  rewrite (bind_ok _ _ _ _ _ H1). simpl.
  rewrite (bind_ok _ _ _ _ _ H2), (bind_ok _ _ _ _ _ H3),
    (bind_ok _ _ _ _ _ H4).
  assert (Hv : visited s4 = []).
  { rewrite (get_keys_visited _ _ _ _ _ _ _ _ _ H4).
    apply read_tables_ok in H3 as (_ & _ & _ & _ & _ & ->).
    apply copy_elf_header_ok in H2 as (_ & _ & _ & _ & _ & _ & ->).
    pose proof (keeps_read_headers inf (fun s => visited s = []) silent ign)
      as Hk.
    specialize (Hk ltac:(intros ? ? [= _ _ _ ->]; done) (initial pos) eq_refl).
    rewrite H1 in Hk. exact Hk. }
  destruct (generate_elf_journal inf silent h t scesegs s4 Hv)
    as (d' & Hp & Hj & Hok).
  apply (journal_keyed _ _ _ Hne) in Hj as (J1 & J2 & J3).
  split; [by rewrite J1|]. split; [exact J3|].
  intros Hr. specialize (Hok Hr). rewrite Hok in J1, J2.
  split; [exact J1|]. split; [exact J2|].
  intros Hperm. rewrite J2. fold (index_map scesegs (e_phnum h)).
  split; [exact Hperm|]. rewrite Hperm. apply NoDup_seqZ.
Qed.

End Order.

Lemma generation_order_witness :
  let res := self2elf Sample.swapped_container (zeros 16) true false
               (initial 0) in
  (visited res.1).*1 `prefix_of` range 2
  /\ Forall (fun p => idx <$> Sample.swapped_keys !! p.1 = Some p.2)
       (visited res.1)
  /\ (res.2 = Ok tt ->
      (visited res.1).*1 = range 2
      /\ (visited res.1).*2 = index_map Sample.swapped_keys 2
      /\ (index_map Sample.swapped_keys 2 ≡ₚ range 2 ->
          (visited res.1).*2 ≡ₚ range 2 /\ NoDup (visited res.1).*2)).
Proof.
  apply (generation_order (E := Sample.externals) Sample.swapped_container
           (zeros 16) true false 0
           Sample.swapped_headers_read (Sample.mkSceHeader 708 0 0)
           Sample.sample_self_header (mkAppInfoHeader 8 0x03600000) 2
           Sample.swapped_header_copied Sample.plain_header
           Sample.swapped_tables_read Sample.swapped_tables
           Sample.swapped_keys_read Sample.swapped_keys).
  - reflexivity.
  - reflexivity.
  - reflexivity.
  - reflexivity.
  - intros H. apply (f_equal (fun m => m !! 0)) in H. discriminate H.
Defined.

(** The claim as stated fails: with key material whose two entries both
    name program header 0, that header is worked on twice and program
    header 1 never; and a conversion that raises in its first iteration
    never reaches index 1. *)
Lemma generation_order_counterexample :
  let twice := self2elf Sample.repeated_container (zeros 16) true false
                 (initial 0) in
  let aborted := self2elf Sample.early_container (zeros 16) true false
                   (initial 0) in
  (visited twice.1 = [(0, 0); (1, 0)] /\ ~ NoDup (visited twice.1).*2)
  /\ (aborted.2 = Raise RuntimeError
      /\ (visited aborted.1).*1 = [0]
      /\ (visited aborted.1).*1 <> range 2).
Proof.
  intros twice aborted.
  assert (H1 : visited twice.1 = [(0, 0); (1, 0)])
    by (vm_compute; reflexivity).
  assert (H2 : visited aborted.1 = [(0, 0)]) by (vm_compute; reflexivity).
  rewrite H1, H2. repeat split.
  - intros H. apply NoDup_cons in H as [H _]. apply H. simpl. left.
  - intros H. vm_compute in H. discriminate H.
Qed.

(** * Decryption *)

Section CounterMode.
Variable enc : bytes -> bytes.
Hypothesis enc_block : forall b, length (enc b) = 16%nat.





End CounterMode.


Section Decryption.
Context `{E : Externals}.
Variable inf : bytes.


End Decryption.


(** * The [silent] flag *)

Section Silent.
Context `{E : Externals}.
Variable inf : bytes.

(** Two states that differ in the diagnostics and in the flag recorded
    with the lookups at most. *)
Definition alike (s1 s2 : State) : Prop :=
  in_pos s1 = in_pos s2 /\ in_log s1 = in_log s2 /\ out s1 = out s2
  /\ at_ s1 = at_ s2 /\ visited s1 = visited s2
  /\ length (lookups s1) = length (lookups s2).

(** Two computations that take alike states to alike states, with the
    same result. *)
Definition sim {A} (m1 m2 : M A) : Prop :=
  forall s1 s2, alike s1 s2 ->
    alike (m1 s1).1 (m2 s2).1 /\ (m1 s1).2 = (m2 s2).2.

Lemma sim_ret {A} (a : A) : sim (mret a) (mret a).
Proof. intros s1 s2 H. split; [exact H | reflexivity]. Qed.

Lemma sim_raise {A} e : sim (@raise _ A e) (raise e).
Proof. intros s1 s2 H. split; [exact H | reflexivity]. Qed.

Lemma sim_from_option {A} e (o : option A) :
  sim (from_option e o) (from_option e o).
Proof. destruct o; [apply sim_ret | apply sim_raise]. Qed.

Lemma sim_bind {A B} (m1 m2 : M A) (f1 f2 : A -> M B) :
  sim m1 m2 -> (forall a, sim (f1 a) (f2 a)) ->
  sim (m1 ≫= f1) (m2 ≫= f2).
Proof.
  intros Hm Hf s1 s2 H. rewrite !bind_run.
  destruct (Hm s1 s2 H) as [Ha Hr].
  destruct (m1 s1) as [t1 [a1|e1]], (m2 s2) as [t2 [a2|e2]];
    simpl in *; try discriminate.
  - injection Hr as ->. apply Hf, Ha.
  - injection Hr as ->. split; [exact Ha | reflexivity].
Qed.

Lemma sim_for_each {X A} (b1 b2 : X -> A -> M A) xs :
  (forall x a, sim (b1 x a) (b2 x a)) ->
  forall a, sim (for_each b1 xs a) (for_each b2 xs a).
Proof.
  intros Hb. induction xs as [|x xs IH]; intros a; simpl.
  - apply sim_ret.
  - apply sim_bind; [apply Hb | exact IH].
Qed.

(** An operation that does not look at the diagnostics. *)
Lemma sim_seek off : sim (inf_seek off) (inf_seek off).
Proof.
  intros s1 s2 (H1 & H2 & H3 & H4 & H5 & H6). unfold inf_seek.
  destruct (off <? 0); simpl; unfold alike; simpl; repeat split;
    congruence.
Qed.

Lemma sim_read n : sim (inf_read inf n) (inf_read inf n).
Proof.
  intros s1 s2 (H1 & H2 & H3 & H4 & H5 & H6).
  unfold inf_read, alike; simpl. rewrite H1, H2. repeat split; congruence.
Qed.

Lemma sim_write dat : sim (outf_write dat) (outf_write dat).
Proof.
  intros s1 s2 (H1 & H2 & H3 & H4 & H5 & H6).
  unfold outf_write, alike; simpl. repeat split; congruence.
Qed.

Lemma sim_get_at : sim get_at get_at.
Proof.
  intros s1 s2 H. split; [exact H|]. unfold get_at. simpl.
  destruct H as (_ & _ & _ & -> & _). reflexivity.
Qed.

Lemma sim_set_at v : sim (set_at v) (set_at v).
Proof.
  intros s1 s2 (H1 & H2 & H3 & H4 & H5 & H6).
  unfold set_at, alike; simpl. repeat split; congruence.
Qed.

Lemma sim_visit i j : sim (visit i j) (visit i j).
Proof.
  intros s1 s2 (H1 & H2 & H3 & H4 & H5 & H6).
  unfold visit, alike; simpl. repeat split; congruence.
Qed.

Lemma sim_print m : sim (print m) (print m).
Proof.
  intros s1 s2 (H1 & H2 & H3 & H4 & H5 & H6).
  unfold print, alike; simpl. repeat split; congruence.
Qed.

(** The guarded diagnostics. *)
Lemma sim_print_unless m : sim (print_unless true m) (print_unless false m).
Proof.
  intros s1 s2 (H1 & H2 & H3 & H4 & H5 & H6).
  unfold print_unless, print, alike; simpl. repeat split; congruence.
Qed.

Hypothesis quiet_lookup :
  forall dat pos sce sysver ty keytype klictxt,
    get_segments dat pos sce sysver ty keytype klictxt true
    = get_segments dat pos sce sysver ty keytype klictxt false.

Lemma sim_get_keys klictxt sce ai v t :
  sim (get_keys inf true klictxt sce ai v t)
      (get_keys inf false klictxt sce ai v t).
Proof.
  unfold get_keys. destruct (encrypted t); [|apply sim_ret].
  intros s1 s2 (H1 & H2 & H3 & H4 & H5 & H6). unfold call_get_segments.
  rewrite quiet_lookup, H1.
  destruct (get_segments _ _ _ _ _ _ _ _) as [[d|] pos']; simpl;
    unfold alike; simpl; rewrite !length_app; simpl;
    repeat split; congruence.
Qed.

End Silent.

(** [sim_auto] relates two runs of the same code, one silent and one
    not. *)
Ltac sim_auto :=
  repeat first
    [ apply sim_ret
    | apply sim_raise
    | apply sim_from_option
    | apply sim_print_unless
    | apply sim_seek | apply sim_read | apply sim_write
    | apply sim_get_at | apply sim_set_at | apply sim_visit
    | apply sim_print
    | apply sim_for_each; intros ? ?
    | match goal with
      | |- sim (if ?c then _ else _) (if ?c then _ else _) => destruct c
      | |- sim (match ?c with _ => _ end) (match ?c with _ => _ end) =>
          destruct c
      end
    | progress cbv zeta
    | apply sim_bind; [|intros ?] ].

Section SilentRuns.
Context `{E : Externals}.
Variable inf : bytes.

Lemma sim_read_headers ign :
  sim (read_headers inf true ign) (read_headers inf false ign).
Proof. unfold read_headers, read_infos, read_control_info. sim_auto. Qed.

Lemma sim_copy_elf_header sh :
  sim (copy_elf_header inf true sh) (copy_elf_header inf false sh).
Proof. unfold copy_elf_header. sim_auto. Qed.

Lemma sim_read_tables sh h :
  sim (read_tables inf true sh h) (read_tables inf false sh h).
Proof. unfold read_tables, read_segment_entry. sim_auto. Qed.

Lemma sim_generate_elf h t scesegs :
  sim (generate_elf inf true h t scesegs) (generate_elf inf false h t scesegs).
Proof.
  unfold generate_elf, dump_segment, resolve_idx, transform_segment.
  sim_auto.
Qed.

(** C10. When the result of the key lookup does not depend on its quiet
    argument, the silent flag changes nothing but the diagnostics: for
    every input the two conversions write the same bytes, end the same
    way, and leave the cursor, the input stream and the journal in the
    same state. *)
Theorem silent_changes_diagnostics_only klictxt ign pos :
  (forall dat p sce sysver ty keytype k,
     get_segments dat p sce sysver ty keytype k true
     = get_segments dat p sce sysver ty keytype k false) ->
  let quiet := self2elf inf klictxt true ign (initial pos) in
  let loud := self2elf inf klictxt false ign (initial pos) in
  out quiet.1 = out loud.1
  /\ quiet.2 = loud.2
  /\ at_ quiet.1 = at_ loud.1
  /\ in_pos quiet.1 = in_pos loud.1
  /\ in_log quiet.1 = in_log loud.1
  /\ visited quiet.1 = visited loud.1.
Proof.
  intros Hq quiet loud.
  assert (H : sim (self2elf inf klictxt true ign)
                  (self2elf inf klictxt false ign)).
  { unfold self2elf.
    apply sim_bind; [apply sim_read_headers|].
    intros [[[sce sh] ai] v].
    apply sim_bind; [apply sim_copy_elf_header|]. intros h.
    apply sim_bind; [apply sim_read_tables|]. intros t.
    apply sim_bind; [apply sim_get_keys, Hq|]. intros d.
    apply sim_generate_elf. }
  destruct (H (initial pos) (initial pos)) as [(H1 & H2 & H3 & H4 & H5 & _) Hr].
  { unfold alike. repeat split. }
  subst quiet loud. repeat split; assumption.
Qed.

End SilentRuns.

Lemma silent_changes_diagnostics_only_witness :
  let quiet := self2elf Sample.swapped_container (zeros 16) true false
                 (initial 0) in
  let loud := self2elf Sample.swapped_container (zeros 16) false false
                (initial 0) in
  out quiet.1 = out loud.1
  /\ quiet.2 = loud.2
  /\ at_ quiet.1 = at_ loud.1
  /\ in_pos quiet.1 = in_pos loud.1
  /\ in_log quiet.1 = in_log loud.1
  /\ visited quiet.1 = visited loud.1.
Proof.
  apply (silent_changes_diagnostics_only (E := Sample.externals)
           Sample.swapped_container (zeros 16) false 0).
  intros dat p sce sysver ty keytype k. reflexivity.
Defined.

(** * The position of the input stream *)

Section Position.
Context `{E : Externals}.
Variable inf : bytes.

Lemma bind_assoc {A B C} (m : M A) (f : A -> M B) (g : B -> M C) s :
  ((m ≫= f) ≫= g) s = (m ≫= (fun x => f x ≫= g)) s.
Proof.
  rewrite !bind_run. destruct (m s) as [s1 [a|e]]; [|reflexivity].
  rewrite bind_run. reflexivity.
Qed.

(** A computation that begins with a seek. *)
Definition seeks_first {A} (m : M A) : Prop :=
  exists off (k : unit -> M A), forall s, m s = (inf_seek off ≫= k) s.

(** It forgets the position it is started at. *)
Lemma position_forgotten {A} (m : M A) s1 s2 :
  seeks_first m -> same_but_pos s1 s2 ->
  same_but_pos (m s1).1 (m s2).1 /\ (m s1).2 = (m s2).2.
Proof.
  intros (off & k & Hm) H. rewrite !Hm, !bind_run. unfold inf_seek.
  destruct (off <? 0); simpl; [split; [exact H | reflexivity]|].
  destruct H as (H1 & H2 & H3 & H4 & H5 & H6).
  rewrite H1, H2, H3, H4, H5, H6.
  destruct (k tt _) as [s' [a|e]]; simpl;
    (split; [unfold same_but_pos; repeat split | reflexivity]).
Qed.

Lemma seeks_first_rest klictxt silent ign sce sh :
  seeks_first
    (read_infos inf silent ign sce sh ≫= fun '(sce, self_hdr, appinfo_hdr, npdrmtype) =>
       elf_hdr ← copy_elf_header inf silent self_hdr;
       t ← read_tables inf silent self_hdr elf_hdr;
       scesegs ← get_keys inf silent klictxt sce appinfo_hdr npdrmtype t;
       generate_elf inf silent elf_hdr t scesegs).
Proof.
  eexists _, _. intros s. unfold read_infos. rewrite bind_assoc. reflexivity.
Qed.

(** The conversion, from the position the input stream is at. *)
Lemma self2elf_from klictxt silent ign p :
  let d1 := read_at inf p SceHeader_Size in
  let p1 := p + Z.of_nat (length d1) in
  let d2 := read_at inf p1 SelfHeader_Size in
  let p2 := p1 + Z.of_nat (length d2) in
  self2elf inf klictxt silent ign (initial p) =
  match SceHeader_new d1 with
  | None => (mkState p1 [Read SceHeader_Size] [] 0 [] [] [],
             Raise ConstructError)
  | Some sce =>
      let so := if silent then [] else [PrintSceHeader sce] in
      match SelfHeader_new d2 with
      | None =>
          (mkState p2 [Read SceHeader_Size; Read SelfHeader_Size] [] 0 so
             [] [], Raise ConstructError)
      | Some sh =>
          (read_infos inf silent ign sce sh ≫= fun '(sce, self_hdr, appinfo_hdr, npdrmtype) =>
             elf_hdr ← copy_elf_header inf silent self_hdr;
             t ← read_tables inf silent self_hdr elf_hdr;
             scesegs ← get_keys inf silent klictxt sce appinfo_hdr npdrmtype t;
             generate_elf inf silent elf_hdr t scesegs)
            (mkState p2 [Read SceHeader_Size; Read SelfHeader_Size] [] 0 so
               [] [])
      end
  end.
Proof.
  intros d1 p1 d2 p2. unfold self2elf, read_headers.
  rewrite !bind_assoc. rewrite bind_run. simpl. fold d1. fold p1.
  rewrite bind_assoc, bind_run.
  destruct (SceHeader_new d1) as [sce|]; simpl; [|reflexivity].
  rewrite bind_assoc, bind_run.
  destruct silent; simpl.
  all: rewrite bind_assoc, bind_run; simpl; fold d2; fold p2.
  all: rewrite bind_assoc, bind_run.
  all: destruct (SelfHeader_new d2) as [sh|]; simpl; reflexivity.
Qed.

End Position.

Section PairedLog.
Context `{E : Externals}.
Variable inf : bytes.

Lemma paired_app l off n :
  paired l -> paired (l ++ [Seek off; Read n]).
Proof.
  induction 1 as [|o m l _ IH]; simpl.
  - repeat constructor.
  - constructor. exact IH.
Qed.

(** Behind the prefix [pre], the log is made of seek-read pairs. *)
Definition paired_behind (pre : list InOp) (s : State) : Prop :=
  exists l, in_log s = pre ++ l /\ paired l.

Lemma through_paired pre : through in_log (paired_behind pre).
Proof. intros s s' H (l & Hl & Hp). exists l. split; congruence. Qed.

Lemma keeps_paired_seek_read pre {A} off n (k : bytes -> M A) :
  (forall dat, keeps (paired_behind pre) (k dat)) ->
  keeps (paired_behind pre) (inf_seek off ≫= fun _ => inf_read inf n ≫= k).
Proof.
  intros Hk s (l & Hl & Hp). rewrite bind_run. unfold inf_seek.
  destruct (off <? 0); simpl; [by exists l|].
  rewrite bind_run. simpl. apply Hk.
  exists (l ++ [Seek off; Read n]). simpl.
  rewrite Hl, <- !app_assoc. split; [reflexivity | by apply paired_app].
Qed.

End PairedLog.

Ltac paired_auto :=
  repeat first
    [ apply keeps_paired_seek_read; intros ?
    | apply keeps_ret
    | apply keeps_raise
    | apply keeps_from_option
    | apply keeps_for_each; intros ? ? _
    | match goal with
      | |- keeps _ (if ?c then _ else _) => destruct c
      | |- keeps _ (match ?c with _ => _ end) => destruct c
      end
    | progress cbv zeta
    | apply keeps_bind; [|intros ?]
    | apply (keeps_through in_log);
      [ apply through_paired
      | solve [intros ?; unfold_ops; simpl; repeat case_match; reflexivity] ] ].

Section PositionTheorem.
Context `{E : Externals}.
Variable inf : bytes.

Lemma keeps_paired_rest pre klictxt silent ign sce sh :
  keeps (paired_behind pre)
    (read_infos inf silent ign sce sh ≫= fun '(sce, self_hdr, appinfo_hdr, npdrmtype) =>
       elf_hdr ← copy_elf_header inf silent self_hdr;
       t ← read_tables inf silent self_hdr elf_hdr;
       scesegs ← get_keys inf silent klictxt sce appinfo_hdr npdrmtype t;
       generate_elf inf silent elf_hdr t scesegs).
Proof.
  apply keeps_bind.
  { unfold read_infos, read_control_info. paired_auto. }
  intros [[[sce' sh'] ai] v].
  apply keeps_bind.
  { unfold copy_elf_header. paired_auto. }
  intros h. apply keeps_bind.
  { unfold read_tables, read_segment_entry. paired_auto. }
  intros t. apply keeps_bind.
  { unfold get_keys. paired_auto. }
  intros d.
  unfold generate_elf, dump_segment, resolve_idx, transform_segment.
  paired_auto.
Qed.

(** C8, as the code has it.  The envelope and the loader header are read
    where the input stream stands, without a seek; every later read
    directly follows a seek to an absolute offset.  So two conversions
    started at different positions write the same bytes and end the same
    way whenever these first two reads return the same bytes, and the
    states they end in differ in the position of the input stream at
    most. *)
Theorem position_matters_for_envelope_only klictxt silent ign p q :
  let d1 := read_at inf p SceHeader_Size in
  read_at inf q SceHeader_Size = d1 ->
  read_at inf (q + Z.of_nat (length d1)) SelfHeader_Size
    = read_at inf (p + Z.of_nat (length d1)) SelfHeader_Size ->
  let rp := self2elf inf klictxt silent ign (initial p) in
  let rq := self2elf inf klictxt silent ign (initial q) in
  (out rp.1 = out rq.1 /\ rp.2 = rq.2 /\ same_but_pos rp.1 rq.1)
  /\ (in_log rp.1 = [Read SceHeader_Size]
      \/ exists l,
           in_log rp.1 = Read SceHeader_Size :: Read SelfHeader_Size :: l
           /\ paired l).
Proof.
  intros d1 H1 H2 rp rq. subst rp rq.
  rewrite (self2elf_from inf klictxt silent ign p),
    (self2elf_from inf klictxt silent ign q).
  cbv zeta. rewrite H1. fold d1. rewrite H2.
  destruct (SceHeader_new d1) as [sce|]; simpl.
  2:{ split; [|by left]. unfold same_but_pos. simpl. repeat split. }
  destruct (SelfHeader_new _) as [sh|]; simpl.
  2:{ split; [|right; exists []; split; [reflexivity | constructor]].
      unfold same_but_pos. simpl. repeat split. }
  match goal with
  | |- context [ (?m ≫= ?k) ?s1 ] =>
      match goal with
      | |- context [ (m ≫= k) ?s2 ] =>
          lazymatch s1 with
          | s2 => fail
          | _ =>
            destruct (position_forgotten (m ≫= k) s1 s2
                        (seeks_first_rest inf klictxt silent ign sce sh))
              as [Hs Hr];
            [unfold same_but_pos; simpl; repeat split|];
            pose proof (keeps_paired_rest
                          [Read SceHeader_Size; Read SelfHeader_Size]
                          klictxt silent ign sce sh s1) as Hl
          end
      end
  end.
  split.
  - split; [apply Hs|]. split; [exact Hr | exact Hs].
  - right. destruct Hl as (l & Hl & Hp).
    + exists []. simpl. split; [reflexivity | constructor].
    + exists l. split; [exact Hl | exact Hp].
Qed.

End PositionTheorem.

Lemma position_matters_for_envelope_only_witness :
  let rp := self2elf Sample.doubled_stream (zeros 16) true false
              (initial 0) in
  let rq := self2elf Sample.doubled_stream (zeros 16) true false
              (initial 120) in
  (out rp.1 = out rq.1 /\ rp.2 = rq.2 /\ same_but_pos rp.1 rq.1)
  /\ (in_log rp.1 = [Read 32]
      \/ exists l, in_log rp.1 = Read 32 :: Read 88 :: l /\ paired l).
Proof.
  apply (position_matters_for_envelope_only (E := Sample.externals)
           Sample.doubled_stream (zeros 16) true false 0 120).
  - vm_compute. reflexivity.
  - vm_compute. reflexivity.
Defined.

(** The claim as stated fails: started one byte into the stream, the
    conversion of a container that converts from position 0 reads another
    envelope, and writes nothing; and the first read of either run is not
    preceded by a seek. *)
Lemma position_independence_counterexample :
  let r0 := self2elf Sample.plain_container (zeros 16) true false
              (initial 0) in
  let r1 := self2elf Sample.plain_container (zeros 16) true false
              (initial 1) in
  r0.2 = Ok tt /\ r1.2 = Raise ConstructError
  /\ out r0.1 <> out r1.1
  /\ head (in_log r0.1) = Some (Read 32).
Proof.
  intros r0 r1. repeat split; try (vm_compute; reflexivity).
  intros H. apply (f_equal length) in H. vm_compute in H. discriminate H.
Qed.

(** * The round trip of a plaintext container *)

Section ImageLemmas.




End ImageLemmas.

Section Layout.
Context `{E : Externals}.
Variable inf : bytes.
Variable sh : SelfHeader.










End Layout.

Section Extension.
Context `{E : Externals}.
Variable inf : bytes.
Variable sh : SelfHeader.


End Extension.

Section RoundTrip.
Context `{E : Externals}.
Variable inf : bytes.
Variable sh : SelfHeader.






End RoundTrip.

Section RoundTripTheorem.
Context `{E : Externals}.
Variable inf : bytes.


End RoundTripTheorem.





(** * Further properties of the conversion *)

(** ** Every segment lands at its file offset *)

Section Landing.
Context `{E : Externals}.
Variable inf : bytes.

Lemma dump_segment_ok_inv silent t scesegs i s s' :
  dump_segment inf silent t scesegs i tt s = (s', Ok tt) ->
  exists idx phdr,
    resolved scesegs i = Some idx
    /\ elf_phdrs t !! idx = Some phdr
    /\ (p_filesz phdr <> 0 -> 0 <= p_offset phdr - at_ s).
Proof.
  intros H.
  destruct (resolved scesegs i) as [idx|] eqn:Hr.
  2:{ unfold dump_segment in H. rewrite bind_run, resolve_idx_run, Hr in H.
      discriminate H. }
  destruct (elf_phdrs t !! idx) as [phdr|] eqn:Hp.
  2:{ unfold dump_segment in H. rewrite bind_run, resolve_idx_run, Hr in H.
      simpl in H. rewrite bind_run in H. simpl in H. rewrite bind_run in H.
      rewrite Hp in H. discriminate H. }
  exists idx, phdr. split; [reflexivity|]. split; [exact Hp|]. intros Hz.
  destruct (Z.ltb_spec (p_offset phdr - at_ s) 0) as [Hn|Hn]; [|exact Hn].
  rewrite (dump_segment_negative_pad inf silent t scesegs i s idx phdr)
    in H by assumption.
  discriminate H.
Qed.

(** The segment of iteration [i] is in the output [o] at its file
    offset. *)
Definition landed (t : Tables) (scesegs : gmap Z SceSegment) (o : bytes)
    (i : Z) : Prop :=
  exists idx phdr,
    resolved scesegs i = Some idx
    /\ elf_phdrs t !! idx = Some phdr
    /\ (p_filesz phdr <> 0 ->
        exists si p,
          segment_infos t !! idx = Some si
          /\ payload scesegs si i (read_at inf (offset si) (size si)) = Some p
          /\ (Z.to_nat (p_offset phdr) + length p <= length o)%nat
          /\ take (length p) (drop (Z.to_nat (p_offset phdr)) o) = p).

Lemma landed_app t scesegs o w i :
  landed t scesegs o i -> landed t scesegs (o ++ w) i.
Proof.
  intros (idx & phdr & Hr & Hp & H). exists idx, phdr.
  split; [exact Hr|]. split; [exact Hp|]. intros Hz.
  destruct (H Hz) as (si & p & Hs & Hpay & Hlen & Htake).
  exists si, p. split; [exact Hs|]. split; [exact Hpay|].
  rewrite length_app. split; [lia|].
  rewrite drop_app_le by lia. rewrite take_app_le; [exact Htake|].
  rewrite length_drop. lia.
Qed.

Lemma dump_segment_lands silent t scesegs i s s' :
  tracked s ->
  dump_segment inf silent t scesegs i tt s = (s', Ok tt) ->
  landed t scesegs (out s') i.
Proof.
  intros Ht H.
  destruct (dump_segment_ok_inv _ _ _ _ _ _ H) as (idx & phdr & Hr & Hp & Hpad).
  exists idx, phdr. split; [exact Hr|]. split; [exact Hp|]. intros Hz.
  specialize (Hpad Hz).
  destruct (dump_segment_padded inf silent t scesegs i s idx phdr Hr Hp Hz Hpad)
    as (rest & Ho & Ha & Hok).
  rewrite H in Ho, Ha, Hok. simpl in *.
  destruct (Hok eq_refl) as (si & Hs & Hpay).
  exists si, rest. split; [exact Hs|]. split; [exact Hpay|].
  assert (Hlen : length (out s ++ zeros (p_offset phdr - at_ s))
                 = Z.to_nat (p_offset phdr)).
  { rewrite length_app. unfold tracked in Ht.
    pose proof (length_zeros (p_offset phdr - at_ s) Hpad). lia. }
  rewrite Ho, app_assoc. split.
  - rewrite length_app, Hlen. lia.
  - rewrite <- Hlen, drop_app_length. apply take_ge. lia.
Qed.

Lemma generate_elf_lands silent h t scesegs s sf :
  tracked s ->
  generate_elf inf silent h t scesegs s = (sf, Ok tt) ->
  forall i, i ∈ range (e_phnum h) -> landed t scesegs (out sf) i.
Proof.
  intros Ht H. unfold generate_elf in H.
  assert (Hgen : (fun d (_ : unit) s' =>
                    tracked s' /\ forall i, i ∈ d -> landed t scesegs (out s') i)
                   ([] ++ range (e_phnum h)) tt sf).
  { eapply (for_each_ok_ind (dump_segment inf silent t scesegs)
              (fun d (_ : unit) s' =>
                 tracked s'
                 /\ forall i, i ∈ d -> landed t scesegs (out s') i));
      [| |exact H].
    - intros d x [] s0 [] s0' _ [Ht0 Hd] Hb. split.
      + pose proof (keeps_tracked_dump_segment inf silent t scesegs x tt s0 Ht0)
          as Hk.
        rewrite Hb in Hk. exact Hk.
      + intros i Hi. apply elem_of_app in Hi as [Hi|Hi].
        * destruct (dump_segment_accounted inf silent t scesegs x s0)
            as (w & Hw & _).
          rewrite Hb in Hw. simpl in Hw. rewrite Hw.
          apply landed_app, Hd, Hi.
        * apply list_elem_of_singleton in Hi as ->.
          eapply dump_segment_lands; eauto.
    - split; [exact Ht|]. intros i Hi. by apply elem_of_nil in Hi. }
  apply Hgen.
Qed.

End Landing.

Section LandingTheorem.
Context `{E : Externals}.
Variable inf : bytes.

(** The cursor is exact when the generation loop is entered. *)
Lemma tracked_before_generation klictxt silent ign pos s1 sce sh ai v s2 h s3
    t s4 scesegs :
  (forall h, Z.of_nat (length (ElfHeader_pack h)) = ElfHeader_Size) ->
  (forall dat ph, ElfPhdr_new dat = Some ph ->
                  Z.of_nat (length dat) = ElfPhdr_Size) ->
  read_headers inf silent ign (initial pos) = (s1, Ok (sce, sh, ai, v)) ->
  copy_elf_header inf silent sh s1 = (s2, Ok h) ->
  read_tables inf silent sh h s2 = (s3, Ok t) ->
  get_keys inf silent klictxt sce ai v t s3 = (s4, Ok scesegs) ->
  tracked s4.
Proof.
  intros Hpack Hphdr H1 H2 H3 H4.
  assert (Hf : out s1 = [] /\ at_ s1 = 0).
  { pose proof (keeps_read_headers inf _ silent ign through_fresh
                  (initial pos) (conj eq_refl eq_refl)) as Hk.
    rewrite H1 in Hk. exact Hk. }
  destruct Hf as [Ho1 Ha1].
  apply copy_elf_header_ok in H2 as (_ & _ & _ & Ho2 & Ha2 & _).
  assert (Ht2 : tracked s2).
  { unfold tracked. rewrite Ho2, Ha2, Ho1. simpl. symmetry. apply Hpack. }
  assert (Ht3 : tracked s3).
  { pose proof (keeps_for_each tracked (read_segment_entry inf silent sh)
                  (range (e_phnum h))
                  (fun i t _ => keeps_tracked_read_segment_entry inf silent sh
                                  i t Hphdr)
                  {| elf_phdrs := ∅; segment_infos := ∅; encrypted := false |}
                  s2 Ht2) as Hk.
    unfold read_tables in H3. rewrite H3 in Hk. exact Hk. }
  pose proof (keeps_tracked_get_keys inf silent klictxt sce ai v t s3 Ht3) as Hk.
  rewrite H4 in Hk. exact Hk.
Qed.

(** X1. In a conversion that ends normally, every iteration of the
    generation loop has resolved a program header, and when that header
    has a non-zero file size the segment's bytes, decrypted and
    decompressed as its segment info says, lie in the output exactly at
    the header's file offset.  The constructors of the imported records
    are taken to accept records of their size only. *)
Theorem segments_land_at_their_offsets klictxt silent ign pos s1 sce sh ai v
    s2 h s3 t s4 scesegs :
  (forall h, Z.of_nat (length (ElfHeader_pack h)) = ElfHeader_Size) ->
  (forall dat ph, ElfPhdr_new dat = Some ph ->
                  Z.of_nat (length dat) = ElfPhdr_Size) ->
  read_headers inf silent ign (initial pos) = (s1, Ok (sce, sh, ai, v)) ->
  copy_elf_header inf silent sh s1 = (s2, Ok h) ->
  read_tables inf silent sh h s2 = (s3, Ok t) ->
  get_keys inf silent klictxt sce ai v t s3 = (s4, Ok scesegs) ->
  let res := self2elf inf klictxt silent ign (initial pos) in
  res.2 = Ok tt ->
  forall i, 0 <= i < e_phnum h ->
    exists idx phdr,
      resolved scesegs i = Some idx
      /\ elf_phdrs t !! idx = Some phdr
      /\ (p_filesz phdr <> 0 ->
          exists si p,
            segment_infos t !! idx = Some si
            /\ payload scesegs si i (read_at inf (offset si) (size si))
               = Some p
            /\ (Z.to_nat (p_offset phdr) + length p <= length (out res.1))%nat
            /\ take (length p) (drop (Z.to_nat (p_offset phdr)) (out res.1))
               = p).
Proof.
  intros Hpack Hphdr H1 H2 H3 H4 res Hok i Hi.
  pose proof (tracked_before_generation klictxt silent ign pos _ _ _ _ _ _ _
                _ _ _ _ Hpack Hphdr H1 H2 H3 H4) as Ht4.
  subst res. unfold self2elf in *.
  rewrite (bind_ok _ _ _ _ _ H1) in *. simpl in *.
  rewrite (bind_ok _ _ _ _ _ H2), (bind_ok _ _ _ _ _ H3),
    (bind_ok _ _ _ _ _ H4) in *.
  destruct (generate_elf inf silent h t scesegs s4) as [sf r] eqn:Hg.
  simpl in *. subst r.
  apply (generate_elf_lands inf silent h t scesegs s4 sf Ht4 Hg).
  apply elem_of_range. exact Hi.
Qed.

End LandingTheorem.

Lemma segments_land_at_their_offsets_witness :
  let res := self2elf Sample.swapped_container (zeros 16) true false
               (initial 0) in
  exists idx phdr,
    resolved Sample.swapped_keys 1 = Some idx
    /\ elf_phdrs Sample.swapped_tables !! idx = Some phdr
    /\ (p_filesz phdr <> 0 ->
        exists si p,
          segment_infos Sample.swapped_tables !! idx = Some si
          /\ payload Sample.swapped_keys si 1
               (read_at Sample.swapped_container (offset si) (size si))
             = Some p
          /\ (Z.to_nat (p_offset phdr) + length p <= length (out res.1))%nat
          /\ take (length p) (drop (Z.to_nat (p_offset phdr)) (out res.1))
             = p).
Proof.
  intros res.
  apply (segments_land_at_their_offsets (E := Sample.externals)
           Sample.swapped_container (zeros 16) true false 0
           Sample.swapped_headers_read (Sample.mkSceHeader 708 0 0)
           Sample.sample_self_header (mkAppInfoHeader 8 0x03600000) 2
           Sample.swapped_header_copied Sample.plain_header
           Sample.swapped_tables_read Sample.swapped_tables
           Sample.swapped_keys_read Sample.swapped_keys).
  - exact sample_pack_length.
  - intros dat ph H. apply sample_sized in H. simpl. lia.
  - reflexivity.
  - reflexivity.
  - reflexivity.
  - reflexivity.
  - vm_compute. reflexivity.
  - simpl. lia.
Defined.

(** ** What the output begins with *)

Section Prefix.
Context `{E : Externals}.
Variable inf : bytes.

(** The output extends [o]. *)
Definition extends (o : bytes) (s : State) : Prop :=
  exists w, out s = o ++ w.

Lemma through_extends o : through out (extends o).
Proof. intros s s' H (w & Hw). exists w. congruence. Qed.

Lemma keeps_extends_dump_segment o silent t scesegs i u :
  keeps (extends o) (dump_segment inf silent t scesegs i u).
Proof.
  intros s (w & Hw). destruct u.
  destruct (dump_segment_accounted inf silent t scesegs i s) as (w' & Hw' & _).
  exists (w ++ w'). rewrite Hw', Hw, app_assoc. reflexivity.
Qed.

Lemma keeps_extends_generation o klictxt silent sce ai v h t :
  keeps (extends o)
    (scesegs ← get_keys inf silent klictxt sce ai v t;
     generate_elf inf silent h t scesegs).
Proof.
  apply keeps_bind.
  - unfold get_keys. destruct (encrypted t); [|apply keeps_ret].
    apply (keeps_through out); [apply through_extends|].
    intros s. unfold call_get_segments.
    destruct (get_segments _ _ _ _ _ _ _ _) as [[d|] pos']; reflexivity.
  - intros scesegs. unfold generate_elf. apply keeps_for_each.
    intros i u _. apply keeps_extends_dump_segment.
Qed.

(** X2. Once the header chain, the ELF header and both tables have been
    read, the output begins with the packed header followed by the
    program headers as they are stored in the container, byte for byte,
    whatever happens afterwards: a failing key lookup or a failing
    segment leaves this prefix in place. *)
Theorem output_begins_with_header_and_table klictxt silent ign pos s1 sce sh
    ai v s2 h s3 t :
  read_headers inf silent ign (initial pos) = (s1, Ok (sce, sh, ai, v)) ->
  copy_elf_header inf silent sh s1 = (s2, Ok h) ->
  read_tables inf silent sh h s2 = (s3, Ok t) ->
  exists rest,
    out (self2elf inf klictxt silent ign (initial pos)).1
    = ElfHeader_pack h ++ concat (phdr_dat inf sh <$> range (e_phnum h))
      ++ rest.
Proof.
  intros H1 H2 H3. unfold self2elf.
  rewrite (bind_ok _ _ _ _ _ H1). simpl.
  rewrite (bind_ok _ _ _ _ _ H2), (bind_ok _ _ _ _ _ H3).
  assert (Ho1 : out s1 = []).
  { pose proof (keeps_read_headers inf _ silent ign through_fresh
                  (initial pos) (conj eq_refl eq_refl)) as Hk.
    rewrite H1 in Hk. apply Hk. }
  apply copy_elf_header_ok in H2 as (_ & _ & _ & Ho2 & _).
  apply read_tables_ok in H3 as (_ & _ & Ho3 & _).
  rewrite Ho2, Ho1 in Ho3. simpl in Ho3.
  destruct (keeps_extends_generation
              (ElfHeader_pack h
               ++ concat (phdr_dat inf sh <$> range (e_phnum h)))
              klictxt silent sce ai v h t s3) as (w & Hw).
  - exists []. by rewrite app_nil_r.
  - exists w. rewrite Hw, <- app_assoc. reflexivity.
Qed.

End Prefix.

Lemma output_begins_with_header_and_table_witness :
  exists rest,
    out (self2elf Sample.early_container (zeros 16) true false (initial 0)).1
    = ElfHeader_pack Sample.plain_header
      ++ concat (phdr_dat Sample.early_container Sample.sample_self_header
                   <$> range 2)
      ++ rest.
Proof.
  apply (output_begins_with_header_and_table (E := Sample.externals)
           Sample.early_container (zeros 16) true false 0
           Sample.early_headers_read (Sample.mkSceHeader 708 0 0)
           Sample.sample_self_header (mkAppInfoHeader 8 0x03600000) 2
           Sample.early_header_copied Sample.plain_header
           Sample.early_tables_read Sample.early_tables).
  - reflexivity.
  - reflexivity.
  - reflexivity.
Defined.

(** ** The arguments of the key lookup *)

Section LookupArguments.
Context `{E : Externals}.
Variable inf : bytes.

Lemma read_headers_appinfo silent ign pos s1 sce sh ai v :
  read_headers inf silent ign (initial pos) = (s1, Ok (sce, sh, ai, v)) ->
  exists ai0,
    AppInfoHeader_new (read_at inf (appinfo_offset sh) AppInfoHeader_Size)
      = Some ai0
    /\ self_type ai = self_type ai0
    /\ sys_version ai = if ign then -1 else sys_version ai0.
Proof.
  intros H. unfold read_headers, read_infos, read_control_info in H.
  run.
  all: eexists; split; [eassumption|]; split; reflexivity.
Qed.

(** X3. When a segment-info record of the container is marked [NO], the
    key lookup is called exactly once, whether the conversion then ends
    normally or not.  It is given the envelope, the executable category
    of the app info, the NPDRM type, the caller's context secret and
    silent flag, and for the system version the one of the app info,
    or -1 when [ignore_sysver] is set. *)
Theorem key_lookup_arguments klictxt silent ign pos s1 sce sh ai v s2 h s3 t :
  read_headers inf silent ign (initial pos) = (s1, Ok (sce, sh, ai, v)) ->
  copy_elf_header inf silent sh s1 = (s2, Ok h) ->
  read_tables inf silent sh h s2 = (s3, Ok t) ->
  (exists i si, 0 <= i < e_phnum h
                /\ stored_seginfo inf sh i = Some si /\ plaintext si = NO) ->
  exists ai0,
    AppInfoHeader_new (read_at inf (appinfo_offset sh) AppInfoHeader_Size)
      = Some ai0
    /\ lookups (self2elf inf klictxt silent ign (initial pos)).1
       = [mkLookupArgs sce (if ign then -1 else sys_version ai0)
            (self_type ai0) v klictxt silent].
Proof.
  intros H1 H2 H3 (i & si & Hi & Hsi & Hno).
  destruct (read_headers_appinfo _ _ _ _ _ _ _ _ H1) as (ai0 & Hai & Hty & Hsv).
  exists ai0. split; [exact Hai|]. rewrite <- Hty, <- Hsv.
  unfold self2elf. rewrite (bind_ok _ _ _ _ _ H1). simpl.
  rewrite (bind_ok _ _ _ _ _ H2), (bind_ok _ _ _ _ _ H3).
  assert (Hl1 : lookups s1 = []).
  { pose proof (keeps_read_headers inf (fun s => lookups s = []) silent ign)
      as Hk.
    specialize (Hk ltac:(intros ? ? [= _ _ -> _]; done) (initial pos) eq_refl).
    rewrite H1 in Hk. exact Hk. }
  apply copy_elf_header_ok in H2 as (_ & _ & _ & _ & _ & Hl2 & _).
  apply read_tables_ok in H3 as (_ & (_ & _ & Henc) & _ & _ & Hl3 & _).
  assert (He : encrypted t = true).
  { apply Henc. exists i, si. rewrite elem_of_range. done. }
  rewrite bind_run. unfold get_keys. rewrite He. unfold call_get_segments.
  destruct (get_segments _ _ _ _ _ _ _ _) as [[d|] pos'].
  - match goal with
    | |- lookups (generate_elf _ _ _ _ _ ?s).1 = _ =>
        apply (keeps_lookups_generate_elf inf _ silent h t d
                 (through_eq lookups _) s)
    end.
    simpl. rewrite Hl3, Hl2, Hl1. reflexivity.
  - simpl. rewrite Hl3, Hl2, Hl1. reflexivity.
Qed.

End LookupArguments.

Lemma key_lookup_arguments_witness :
  exists ai0,
    AppInfoHeader_new (read_at Sample.swapped_container 120 32) = Some ai0
    /\ lookups (self2elf Sample.swapped_container (zeros 16) true true
                  (initial 0)).1
       = [mkLookupArgs (Sample.mkSceHeader 708 0 0)
            (if true then -1 else sys_version ai0) (self_type ai0) 2
            (zeros 16) true].
Proof.
  apply (key_lookup_arguments (E := Sample.externals)
           Sample.swapped_container (zeros 16) true true 0
           Sample.swapped_headers_read (Sample.mkSceHeader 708 0 0)
           Sample.sample_self_header (mkAppInfoHeader 8 (-1)) 2
           Sample.swapped_header_copied Sample.plain_header
           Sample.swapped_tables_read Sample.swapped_tables).
  - reflexivity.
  - reflexivity.
  - reflexivity.
  - exists 0, (mkSegmentInfo 700 3 NO NO).
    split; [simpl; lia|]. split; reflexivity.
Defined.

(** ** A segment that cannot be transformed *)

Section FailedSegment.
Context `{E : Externals}.
Variable inf : bytes.




End FailedSegment.


(** ** Indices outside the tables *)

Section OutOfRange.
Context `{E : Externals}.
Variable inf : bytes.

(** X5. An index field of the key material that is not among
    [0 .. count-1] makes the iteration raise the key error, before it
    prints, seeks, reads or writes anything. *)
Theorem index_out_of_range_raises silent sh h s2 s3 t scesegs i idx s :
  read_tables inf silent sh h s2 = (s3, Ok t) ->
  resolved scesegs i = Some idx ->
  ~ (0 <= idx < e_phnum h) ->
  dump_segment inf silent t scesegs i tt s
  = (mkState (in_pos s) (in_log s) (out s) (at_ s) (stdout s) (lookups s)
       (visited s ++ [(i, idx)]),
     Raise KeyError).
Proof.
  intros H3 Hr Hout.
  apply read_tables_ok in H3 as (_ & (_ & Hnone & _) & _).
  destruct (Hnone idx) as [Hp _]; [by rewrite elem_of_range|].
  unfold dump_segment. rewrite bind_run, resolve_idx_run, Hr. simpl.
  rewrite bind_run. simpl. rewrite bind_run, Hp. reflexivity.
Qed.

End OutOfRange.

Lemma index_out_of_range_raises_witness :
  dump_segment Sample.swapped_container true Sample.swapped_tables
    {[ 0 := mkSceSegment 2 Sample.key_a Sample.ctr_a ]} 0 tt
    Sample.swapped_tables_read
  = (mkState (in_pos Sample.swapped_tables_read)
       (in_log Sample.swapped_tables_read) (out Sample.swapped_tables_read)
       (at_ Sample.swapped_tables_read) (stdout Sample.swapped_tables_read)
       (lookups Sample.swapped_tables_read)
       (visited Sample.swapped_tables_read ++ [(0, 2)]),
     Raise KeyError).
Proof.
  apply (index_out_of_range_raises (E := Sample.externals)
           Sample.swapped_container true Sample.sample_self_header
           Sample.plain_header Sample.swapped_header_copied
           Sample.swapped_tables_read Sample.swapped_tables).
  - reflexivity.
  - reflexivity.
  - simpl. lia.
Defined.

(** ** Containers at the edges *)

Section Edges.
Context `{E : Externals}.
Variable inf : bytes.

(** X6. A container whose ELF header announces no program header
    converts to the packed header alone: no table entry is read, the key
    lookup is not called and no segment is visited. *)
Theorem no_program_headers klictxt silent ign pos s1 sce sh ai v s2 h :
  read_headers inf silent ign (initial pos) = (s1, Ok (sce, sh, ai, v)) ->
  copy_elf_header inf silent sh s1 = (s2, Ok h) ->
  e_phnum h <= 0 ->
  self2elf inf klictxt silent ign (initial pos) = (s2, Ok tt)
  /\ out s2 = ElfHeader_pack h
  /\ lookups s2 = [] /\ visited s2 = [].
Proof.
  intros H1 H2 Hn. split.
  - unfold self2elf. rewrite (bind_ok _ _ _ _ _ H1). simpl.
    rewrite (bind_ok _ _ _ _ _ H2).
    unfold read_tables, generate_elf, range. rewrite seqZ_nil by exact Hn.
    reflexivity.
  - pose proof (keeps_read_headers inf
      (fun s => out s = [] /\ lookups s = [] /\ visited s = []) silent ign)
      as Hk.
    specialize (Hk ltac:(intros ? ? [= -> _ -> ->]; done) (initial pos)
                  (conj eq_refl (conj eq_refl eq_refl))).
    rewrite H1 in Hk. simpl in Hk. destruct Hk as (Ho & Hl & Hv).
    apply copy_elf_header_ok in H2 as (_ & _ & _ & Ho2 & _ & Hl2 & Hv2).
    rewrite Ho2, Hl2, Hv2, Ho, Hl, Hv. done.
Qed.

(** X7. A conversion that fails in the header chain or at the ELF header
    ends with that exception and has written nothing. *)
Theorem early_failure_writes_nothing klictxt silent ign pos :
  (forall s1 e,
     read_headers inf silent ign (initial pos) = (s1, Raise e) ->
     self2elf inf klictxt silent ign (initial pos) = (s1, Raise e)
     /\ out s1 = [])
  /\ (forall s1 sce sh ai v s2 e,
        read_headers inf silent ign (initial pos) = (s1, Ok (sce, sh, ai, v)) ->
        copy_elf_header inf silent sh s1 = (s2, Raise e) ->
        self2elf inf klictxt silent ign (initial pos) = (s2, Raise e)
        /\ out s2 = []).
Proof.
  assert (Hfresh : forall s1 r,
            read_headers inf silent ign (initial pos) = (s1, r) ->
            out s1 = []).
  { intros s1 r H.
    pose proof (keeps_read_headers inf _ silent ign through_fresh
                  (initial pos) (conj eq_refl eq_refl)) as Hk.
    rewrite H in Hk. apply Hk. }
  split.
  - intros s1 e H. split; [|eapply Hfresh, H].
    unfold self2elf. by rewrite (bind_raise _ _ _ _ _ H).
  - intros s1 sce sh ai v s2 e H1 H2. split.
    + unfold self2elf. rewrite (bind_ok _ _ _ _ _ H1). simpl.
      by rewrite (bind_raise _ _ _ _ _ H2).
    + apply copy_elf_header_raise in H2 as [-> _]. eapply Hfresh, H1.
Qed.

(** X8. The context secret reaches the key lookup only: for a container
    without a segment-info record marked [NO], the conversion is the same
    for every context secret. *)
Theorem context_secret_unused_without_encryption silent ign pos s1 sce sh ai v
    s2 h k1 k2 :
  read_headers inf silent ign (initial pos) = (s1, Ok (sce, sh, ai, v)) ->
  copy_elf_header inf silent sh s1 = (s2, Ok h) ->
  (forall i si, 0 <= i < e_phnum h ->
     stored_seginfo inf sh i = Some si -> plaintext si <> NO) ->
  self2elf inf k1 silent ign (initial pos)
  = self2elf inf k2 silent ign (initial pos).
Proof.
  intros H1 H2 Hplain. unfold self2elf.
  rewrite !(bind_ok _ _ _ _ _ H1). simpl. rewrite !(bind_ok _ _ _ _ _ H2).
  rewrite !bind_run.
  destruct (read_tables inf silent sh h s2) as [s3 [t|e]] eqn:H3;
    [|reflexivity].
  apply read_tables_ok in H3 as (_ & (_ & _ & Henc) & _).
  assert (He : encrypted t = false).
  { destruct (encrypted t) eqn:Ht; [|done].
    destruct (proj1 Henc eq_refl) as (i & si & Hi & Hs & Hn).
    apply elem_of_range in Hi. exfalso. eapply Hplain; eauto. }
  unfold get_keys. rewrite He. reflexivity.
Qed.

End Edges.

Lemma no_program_headers_witness :
  self2elf Sample.bare_container (zeros 16) true false (initial 0)
  = (Sample.bare_header_copied, Ok tt)
  /\ out Sample.bare_header_copied = ElfHeader_pack Sample.bare_header
  /\ lookups Sample.bare_header_copied = []
  /\ visited Sample.bare_header_copied = [].
Proof.
  apply (no_program_headers (E := Sample.externals) Sample.bare_container
           (zeros 16) true false 0 Sample.bare_headers_read
           (Sample.mkSceHeader 572 0 0) Sample.bare_self_header
           (mkAppInfoHeader 8 0x03600000) 2).
  - reflexivity.
  - reflexivity.
  - simpl. lia.
Defined.

Lemma early_failure_writes_nothing_witness :
  self2elf Sample.plain_container (zeros 16) true false (initial 1)
  = (Sample.misaligned_failed, Raise ConstructError)
  /\ out Sample.misaligned_failed = [].
Proof.
  apply (proj1 (early_failure_writes_nothing (E := Sample.externals)
                  Sample.plain_container (zeros 16) true false 1)).
  reflexivity.
Defined.

Lemma context_secret_unused_without_encryption_witness :
  self2elf Sample.plain_container (zeros 16) true false (initial 0)
  = self2elf Sample.plain_container Sample.key_a true false (initial 0).
Proof.
  apply (context_secret_unused_without_encryption (E := Sample.externals)
           Sample.plain_container true false 0
           Sample.plain_headers_read (Sample.mkSceHeader 708 0 0)
           Sample.sample_self_header (mkAppInfoHeader 8 0x03600000) 2
           Sample.plain_header_copied Sample.plain_header).
  - reflexivity.
  - reflexivity.
  - intros i si Hi. assert (i = 0 \/ i = 1) as [-> | ->] by (simpl in Hi; lia).
    + intros [= <-]. discriminate.
    + intros [= <-]. discriminate.
Defined.

(** * What a silent run still prints *)

Section Quiet.
Context `{E : Externals}.
Variable inf : bytes.












End Quiet.

(** * The system-version override *)

Section Override.
Context `{E : Externals}.
Variable inf : bytes.

(** [ignore_sysver] replaces the system version of the app info and, in
    a silent run, touches nothing else of the header chain. *)
Lemma read_headers_override s s1 r :
  read_headers inf true false s = (s1, r) ->
  read_headers inf true true s
  = (s1, match r with
         | Ok (sce, sh, ai, v) =>
             Ok (sce, sh, {| self_type := self_type ai; sys_version := -1 |}, v)
         | Raise e => Raise e
         end).
Proof.
  unfold read_headers, read_infos, read_control_info. intros H.
  run; reflexivity.
Qed.

(** X10. The system-version override reaches the key lookup only: for a
    container without a segment-info record marked [NO], a silent
    conversion is the same with and without [ignore_sysver]. *)
Theorem sysver_override_unused_without_encryption klictxt pos s1 sce sh ai v
    s2 h :
  read_headers inf true false (initial pos) = (s1, Ok (sce, sh, ai, v)) ->
  copy_elf_header inf true sh s1 = (s2, Ok h) ->
  (forall i si, 0 <= i < e_phnum h ->
     stored_seginfo inf sh i = Some si -> plaintext si <> NO) ->
  self2elf inf klictxt true true (initial pos)
  = self2elf inf klictxt true false (initial pos).
Proof.
  intros H1 H2 Hplain. unfold self2elf.
  rewrite (bind_ok _ _ _ _ _ (read_headers_override _ _ _ H1)).
  rewrite (bind_ok _ _ _ _ _ H1). simpl.
  rewrite !(bind_ok _ _ _ _ _ H2). rewrite !bind_run.
  destruct (read_tables inf true sh h s2) as [s3 [t|e]] eqn:H3;
    [|reflexivity].
  apply read_tables_ok in H3 as (_ & (_ & _ & Henc) & _).
  assert (He : encrypted t = false).
  { destruct (encrypted t) eqn:Ht; [|done].
    destruct (proj1 Henc eq_refl) as (i & si & Hi & Hs & Hn).
    apply elem_of_range in Hi. exfalso. eapply Hplain; eauto. }
  unfold get_keys. rewrite He. reflexivity.
Qed.

End Override.

Lemma sysver_override_unused_without_encryption_witness :
  self2elf Sample.plain_container (zeros 16) true true (initial 0)
  = self2elf Sample.plain_container (zeros 16) true false (initial 0).
Proof.
  apply (sysver_override_unused_without_encryption (E := Sample.externals)
           Sample.plain_container (zeros 16) 0
           Sample.plain_headers_read (Sample.mkSceHeader 708 0 0)
           Sample.sample_self_header (mkAppInfoHeader 8 0x03600000) 2
           Sample.plain_header_copied Sample.plain_header).
  - reflexivity.
  - reflexivity.
  - intros i si Hi. assert (i = 0 \/ i = 1) as [-> | ->] by (simpl in Hi; lia).
    + intros [= <-]. discriminate.
    + intros [= <-]. discriminate.
Defined.
